(** * bunny-scroller: the React animation components of [web/AsciiBackground.tsx]

    A shallow embedding of the two components exported by
    [web/AsciiBackground.tsx]:

    - [AsciiBackground]: cycles through several frame sets;
    - [ScrollingAscii]: cycles through one list of frames inside a layer
      that is moved by a CSS animation.

    Both components keep their state in [useState] cells and advance it from
    a [setInterval] callback installed by a [useEffect]; the effect's
    cleanup calls [clearInterval].  The embedding makes the pieces explicit:

    - the JavaScript numbers that occur (integers and [NaN]),
    - the host's table of live interval timers,
    - the closure captured by each interval callback,
    - the dependency array that decides when an effect is run again,
    - the DOM tree that [document.getElementById] searches. *)

From Stdlib Require Import ZArith List String Ascii Lia Bool.
From stdpp Require Import base option gmap list strings pretty.
Import ListNotations.
Local Open Scope string_scope.
Local Open Scope Z_scope.
Local Set Warnings "-register-all".

(** ** JavaScript values *)

Module JS.

(** The numbers the components compute with are array indices and array
    lengths.  They are integers far below 2^53, where double arithmetic is
    exact, and the one non-integer that can arise is [NaN] (from [% 0]). *)
Inductive num : Type :=
| Int (z : Z)
| NaN.

#[global] Instance num_eq_dec : EqDecision num.
Proof. solve_decision. Defined.

(** [a + b] *)
Definition add (a b : num) : num :=
  match a, b with
  | Int x, Int y => Int (x + y)
  | _, _ => NaN
  end.

(** [a % b]: the result takes the sign of the dividend; [x % 0] is [NaN]. *)
Definition rem (a b : num) : num :=
  match a, b with
  | Int x, Int y => if y =? 0 then NaN else Int (Z.rem x y)
  | _, _ => NaN
  end.

(** [a >= b]: every comparison with [NaN] is false. *)
Definition ge (a b : num) : bool :=
  match a, b with
  | Int x, Int y => x >=? y
  | _, _ => false
  end.

(** [arr.length] *)
Definition len {A : Type} (arr : list A) : num :=
  Int (Z.of_nat (length arr)).

(** [arr[i]]: [None] stands for [undefined], which is what an index that
    is negative, past the end or [NaN] reads. *)
Definition index {A : Type} (arr : list A) (i : num) : option A :=
  match i with
  | Int z => if z <? 0 then None else arr !! Z.to_nat z
  | NaN => None
  end.

(** The outcome of evaluating code that may throw. *)
Inductive result (A : Type) : Type :=
| Ok (a : A)
| TypeError.
Arguments Ok {A} a.
Arguments TypeError {A}.

Definition bind {A B : Type} (r : result A) (k : A -> result B) : result B :=
  match r with
  | Ok a => k a
  | TypeError => TypeError
  end.

(** Object spread [{...base, ...over}] on objects kept as association
    lists in property order: a key of [over] replaces the value of the
    same key of [base] in place, a new key is added at the end. *)
Fixpoint assign (k v : string) (o : list (string * string))
  : list (string * string) :=
  match o with
  | [] => [(k, v)]
  | (k', v') :: rest =>
      if String.eqb k k' then (k, v) :: rest else (k', v') :: assign k v rest
  end.

Definition spread (base over : list (string * string))
  : list (string * string) :=
  fold_left (fun acc kv => assign (fst kv) (snd kv) acc) over base.

(** [o[k]] on an object kept as an association list whose keys are distinct:
    the value of the entry with the key, [None] for [undefined]. *)
Fixpoint get (k : string) (o : list (string * string)) : option string :=
  match o with
  | [] => None
  | (k', v) :: rest => if String.eqb k k' then Some v else get k rest
  end.

End JS.

(** ** The host's interval timers *)

Module Host.
Section Timers.
Context {Callback : Type}.

(** The live intervals, by handle, and the next handle to give out. *)
Record Timers : Type := MkTimers {
  live : gmap nat (Callback * Z);
  fresh : nat;
}.

Definition noTimers : Timers := {| live := ∅; fresh := 1 |}.

(** [setInterval(cb, delay)] returns the new handle. *)
Definition setInterval (cb : Callback) (delay : Z) (t : Timers)
  : nat * Timers :=
  (fresh t, {| live := <[fresh t := (cb, delay)]> (live t);
               fresh := S (fresh t) |}).

(** [clearInterval(handle)] *)
Definition clearInterval (handle : nat) (t : Timers) : Timers :=
  {| live := delete handle (live t); fresh := fresh t |}.
End Timers.
Arguments Timers Callback : clear implicits.
End Host.

(** ** DOM elements *)

Module Dom.

(** An element: tag, [id] and [class] attributes, inline style, text
    content and child elements. *)
Inductive Element : Type :=
| Elem (tag : string) (id : option string) (className : option string)
       (style : list (string * string)) (text : option string)
       (children : list Element).

Definition tag (e : Element) : string :=
  match e with Elem t _ _ _ _ _ => t end.
Definition id (e : Element) : option string :=
  match e with Elem _ i _ _ _ _ => i end.
Definition style (e : Element) : list (string * string) :=
  match e with Elem _ _ _ s _ _ => s end.
Definition text (e : Element) : option string :=
  match e with Elem _ _ _ _ t _ => t end.
Definition children (e : Element) : list Element :=
  match e with Elem _ _ _ _ _ c => c end.

Definition hasId (i : string) (e : Element) : bool :=
  match id e with
  | Some j => String.eqb i j
  | None => false
  end.

(** The first element with the given id in tree order, the element itself
    included. *)
Fixpoint findId (i : string) (e : Element) : option Element :=
  if hasId i e then Some e
  else
    (fix inChildren (l : list Element) : option Element :=
       match l with
       | [] => None
       | c :: rest =>
           match findId i c with
           | Some x => Some x
           | None => inChildren rest
           end
       end) (children e).

(** How many elements of the tree carry the given id. *)
Fixpoint countId (i : string) (e : Element) : nat :=
  ((if hasId i e then 1 else 0) +
   (fix inChildren (l : list Element) : nat :=
      match l with
      | [] => 0
      | c :: rest => countId i c + inChildren rest
      end) (children e))%nat.

(** [findId] and [countId] over a list of children, as the inner loops of
    the two functions compute them. *)
Definition findInList (i : string) (l : list Element) : option Element :=
  (fix inChildren (l : list Element) : option Element :=
     match l with
     | [] => None
     | c :: rest =>
         match findId i c with
         | Some x => Some x
         | None => inChildren rest
         end
     end) l.

Definition countInList (i : string) (l : list Element) : nat :=
  (fix inChildren (l : list Element) : nat :=
     match l with
     | [] => 0
     | c :: rest => countId i c + inChildren rest
     end)%nat l.

(** The document: its [head] and [body] elements. *)
Record Document : Type := MkDocument {
  head : Element;
  body : Element;
}.

(** [document.getElementById(i)] *)
Definition getElementById (i : string) (d : Document) : option Element :=
  match findId i (head d) with
  | Some e => Some e
  | None => findId i (body d)
  end.

Definition countInDocument (i : string) (d : Document) : nat :=
  (countId i (head d) + countId i (body d))%nat.

(** [parent.appendChild(child)] *)
Definition appendChild (child : Element) (parent : Element) : Element :=
  match parent with
  | Elem t i c s x cs => Elem t i c s x (cs ++ [child])
  end.

End Dom.

(** ** AsciiBackground: cycling through frame sets *)

Module AsciiBackground.

(** [AsciiBackgroundProps]; an optional prop that is absent is [None]. *)
Record Props : Type := MkProps {
  frameSets : list (list string);
  frameRate : option Z;
  color : option string;
  fontSize : option Z;
  className : option string;
  style : option (list (string * string));
}.

(** The defaults of the parameter destructuring. *)
Definition frameRate' (p : Props) : Z := default 200 (frameRate p).
Definition color' (p : Props) : string := default "#3a3a3a" (color p).
Definition fontSize' (p : Props) : Z := default 12 (fontSize p).
Definition className' (p : Props) : string := default "" (className p).
Definition style' (p : Props) : list (string * string) :=
  default [] (style p).

(** The two [useState] cells. *)
Record State : Type := MkState {
  frameIndex : JS.num;
  setIndex : JS.num;
}.

(** [useState(0)] twice. *)
Definition initialState : State :=
  {| frameIndex := JS.Int 0; setIndex := JS.Int 0 |}.

(** [const currentFrameSet = frameSets[setIndex]] *)
Definition currentFrameSet (p : Props) (s : State) : option (list string) :=
  JS.index (frameSets p) (setIndex s).

Definition containerStyle (p : Props) : list (string * string) :=
  JS.spread
    [("position", "fixed"); ("top", "0"); ("left", "0");
     ("width", "100%"); ("height", "100%"); ("zIndex", "-1");
     ("display", "flex"); ("alignItems", "flex-end");
     ("justifyContent", "center"); ("pointerEvents", "none");
     ("overflow", "hidden")]
    (style' p).

Definition preStyle (p : Props) : list (string * string) :=
  [("fontFamily", "'Courier New', Courier, monospace");
   ("fontSize", pretty (fontSize' p) +:+ "px");
   ("lineHeight", "1.1");
   ("color", color' p);
   ("whiteSpace", "pre");
   ("userSelect", "none");
   ("margin", "0");
   ("padding", "0")].

(** One evaluation of the component body.  [frameSets[setIndex]] may be
    [undefined], and then [currentFrameSet[frameIndex]] throws; otherwise
    the body returns the element tree, whose [pre] shows [currentFrame]. *)
Definition render (p : Props) (s : State) : JS.result Dom.Element :=
  match currentFrameSet p s with
  | None => JS.TypeError
  | Some cfs =>
      let currentFrame := JS.index cfs (frameIndex s) in
      JS.Ok (Dom.Elem "div" None (Some (className' p)) (containerStyle p) None
               [Dom.Elem "pre" None None (preStyle p) currentFrame []])
  end.

(** The text shown by a rendered tree: the content of its [pre]. *)
Definition displayed (e : Dom.Element) : option string :=
  match Dom.children e with
  | pre :: _ => Dom.text pre
  | [] => None
  end.

(** What the interval callback closes over: the [currentFrameSet] and the
    [frameSets] of the render in which the effect was run. *)
Record Callback : Type := MkCallback {
  cb_currentFrameSet : list string;
  cb_frameSets : list (list string);
}.

(** The updater handed to [setSetIndex]. *)
Definition setUpdater (cb : Callback) (prevSet : JS.num) : JS.num :=
  JS.rem (JS.add prevSet (JS.Int 1)) (JS.len (cb_frameSets cb)).

(** The updater handed to [setFrameIndex]: the new frame index, and
    whether it called [setSetIndex] on the way. *)
Definition frameUpdater (cb : Callback) (prevFrame : JS.num)
  : JS.num * bool :=
  let nextFrame := JS.add prevFrame (JS.Int 1) in
  if JS.ge nextFrame (JS.len (cb_currentFrameSet cb))
  then (JS.Int 0, true)
  else (nextFrame, false).

(** The interval callback: [setFrameIndex(updater)], each queued updater
    being applied once to the state it finds. *)
Definition intervalCallback (cb : Callback) (s : State) : State :=
  let '(newFrame, switch) := frameUpdater cb (frameIndex s) in
  {| frameIndex := newFrame;
     setIndex := if switch then setUpdater cb (setIndex s) else setIndex s |}.

(** The dependency array
    [[frameRate, frameSets.length, currentFrameSet.length]]. *)
Definition Deps : Type := (Z * JS.num * JS.num)%type.

Definition deps (p : Props) (cfs : list string) : Deps :=
  (frameRate' p, JS.len (frameSets p), JS.len cfs).

(** A component instance together with the host's timers.  [effect]
    records the last run of the effect: its dependencies and the interval
    handle that its cleanup will clear.  [dispatches] counts the calls of
    the interval callback. *)
Record World : Type := MkWorld {
  props : Props;
  state : State;
  mounted : bool;
  effect : option (Deps * nat);
  timers : Host.Timers Callback;
  dispatches : nat;
}.

(** Running the effect body: [setInterval(callback, frameRate)]. *)
Definition runEffect (cfs : list string) (w : World) : World :=
  let cb := {| cb_currentFrameSet := cfs; cb_frameSets := frameSets (props w) |} in
  let '(interval, t) := Host.setInterval cb (frameRate' (props w)) (timers w) in
  {| props := props w; state := state w; mounted := mounted w;
     effect := Some (deps (props w) cfs, interval);
     timers := t; dispatches := dispatches w |}.

(** Running the cleanup of the last effect: [clearInterval(interval)]. *)
Definition runCleanup (w : World) : World :=
  match effect w with
  | Some (_, interval) =>
      {| props := props w; state := state w; mounted := mounted w;
         effect := None;
         timers := Host.clearInterval interval (timers w);
         dispatches := dispatches w |}
  | None => w
  end.

(** A render followed by the commit of its effect: on the first render the
    effect runs; on a later one it runs again, after the cleanup of the
    previous run, exactly when a dependency has changed. *)
Definition commit (w : World) : JS.result World :=
  match render (props w) (state w), currentFrameSet (props w) (state w) with
  | JS.Ok _, Some cfs =>
      match effect w with
      | None => JS.Ok (runEffect cfs w)
      | Some (old, _) =>
          if decide (old = deps (props w) cfs) then JS.Ok w
          else JS.Ok (runEffect cfs (runCleanup w))
      end
  | _, _ => JS.TypeError
  end.

(** Mounting the component on a host with no timers of its own. *)
Definition mount (p : Props) : JS.result World :=
  commit {| props := p; state := initialState; mounted := true;
            effect := None; timers := Host.noTimers; dispatches := 0 |}.

(** Unmounting runs the cleanup of the effect. *)
Definition unmount (w : World) : World :=
  let w' := runCleanup w in
  {| props := props w'; state := state w'; mounted := false;
     effect := effect w'; timers := timers w'; dispatches := dispatches w' |}.

(** The host fires the interval with the given handle.  A handle that is
    not live has no callback to call.  The callback of a live one updates
    the state; a mounted component is then rendered again. *)
Definition fire (handle : nat) (w : World) : JS.result World :=
  match Host.live (timers w) !! handle with
  | None => JS.Ok w
  | Some (cb, _) =>
      let w' := {| props := props w;
                   state := intervalCallback cb (state w);
                   mounted := mounted w; effect := effect w;
                   timers := timers w;
                   dispatches := S (dispatches w) |} in
      if mounted w then commit w' else JS.Ok w'
  end.

(** One tick: the host fires the interval of the component's effect. *)
Definition tick (w : World) : JS.result World :=
  match effect w with
  | Some (_, interval) => fire interval w
  | None => JS.Ok w
  end.

(** [n] ticks in a row. *)
Fixpoint ticks (n : nat) (w : World) : JS.result World :=
  match n with
  | O => JS.Ok w
  | S k => JS.bind (tick w) (ticks k)
  end.

(** What the host may do to a component. *)
Inductive Event : Type :=
| Fire (handle : nat)
| Unmount.

Definition step (e : Event) (w : World) : JS.result World :=
  match e with
  | Fire handle => fire handle w
  | Unmount => JS.Ok (unmount w)
  end.

Fixpoint run (es : list Event) (w : World) : JS.result World :=
  match es with
  | [] => JS.Ok w
  | e :: rest => JS.bind (step e w) (run rest)
  end.

(** The frame on screen. *)
Definition view (w : World) : option string :=
  match render (props w) (state w) with
  | JS.Ok e => displayed e
  | JS.TypeError => None
  end.

(** *** The tick on the indices *)

(** The state with set index [i.1] and frame index [i.2]. *)
Definition stateOf (i : nat * nat) : State :=
  {| frameIndex := JS.Int (Z.of_nat i.2); setIndex := JS.Int (Z.of_nat i.1) |}.

(** What a tick does to a pair (set index, frame index) that is in range;
    [intervalCallback_indexStep] below relates it to the callback. *)
Definition indexStep (fs : list (list string)) (i : nat * nat) : nat * nat :=
  match fs !! i.1 with
  | Some active =>
      if bool_decide (length active ≤ S i.2)%nat
      then ((S i.1 mod length fs)%nat, 0%nat)
      else (i.1, S i.2)
  | None => i
  end.

Fixpoint indexSteps (fs : list (list string)) (n : nat) (i : nat * nat)
  : nat * nat :=
  match n with
  | O => i
  | S k => indexSteps fs k (indexStep fs i)
  end.

(** The indices are in range. *)
Definition inRange (fs : list (list string)) (i : nat * nat) : Prop :=
  exists active, fs !! i.1 = Some active /\ (i.2 < length active)%nat.

(** The same on a state, in the numbers of the component:
    [0 <= setIndex < frameSets.length] and
    [0 <= frameIndex < frameSets[setIndex].length]. *)
Definition indicesValid (p : Props) (s : State) : Prop :=
  exists (si fi : Z) (active : list string),
    s = {| frameIndex := JS.Int fi; setIndex := JS.Int si |} /\
    0 <= si < Z.of_nat (length (frameSets p)) /\
    JS.index (frameSets p) (JS.Int si) = Some active /\
    0 <= fi < Z.of_nat (length active).

(** A mounted component between two ticks: the indices are [i], in range;
    the one live interval is the one of the last effect run; and the
    frame set its callback captured is as long as the active one. *)
Record Settled (p : Props) (w : World) (i : nat * nat) : Prop := MkSettled {
  settled_props : props w = p;
  settled_mounted : mounted w = true;
  settled_state : state w = stateOf i;
  settled_range : inRange (frameSets p) i;
  settled_effect :
    exists captured interval,
      (forall active, frameSets p !! i.1 = Some active ->
                      length captured = length active) /\
      effect w = Some (deps p captured, interval) /\
      Host.live (timers w)
      = {[ interval := ({| cb_currentFrameSet := captured;
                           cb_frameSets := frameSets p |}, frameRate' p) ]};
}.

(** A component at any point of its life, mounted or not: the set index
    is in range, and the timers are in order: a mounted component has
    exactly the interval of its last effect run live, with a callback
    that captured the frame sets of the props, and an unmounted one has
    none. *)
Definition Alive (p : Props) (w : World) : Prop :=
  props w = p /\
  (exists (s : nat) (f : JS.num),
      state w = {| frameIndex := f; setIndex := JS.Int (Z.of_nat s) |} /\
      (s < length (frameSets p))%nat) /\
  match effect w with
  | Some (_, interval) =>
      mounted w = true /\
      exists captured delay,
        Host.live (timers w)
        = {[ interval := ({| cb_currentFrameSet := captured;
                             cb_frameSets := frameSets p |}, delay) ]}
  | None => mounted w = false /\ Host.live (timers w) = ∅
  end.

(** *** Two concrete animations *)

(** The scenario of the documentation: two sets, of two and three frames,
    at 200 ms per frame. *)
Definition scenarioProps : Props :=
  {| frameSets := [["A"; "B"]; ["C"; "D"; "E"]];
     frameRate := Some 200; color := None; fontSize := None;
     className := None; style := None |}.

(** The smallest animation: one set with one frame. *)
Definition singleFrameProps : Props :=
  {| frameSets := [["A"]];
     frameRate := None; color := None; fontSize := None;
     className := None; style := None |}.

(** *** Frame sets that may be empty *)

(** The handle of the interval of the last effect run. *)
Definition intervalOf (w : World) : option nat := snd <$> effect w.

(** The base of [containerStyle], before the [style] prop is spread over
    it. *)
Definition containerBase : list (string * string) :=
  [("position", "fixed"); ("top", "0"); ("left", "0");
   ("width", "100%"); ("height", "100%"); ("zIndex", "-1");
   ("display", "flex"); ("alignItems", "flex-end");
   ("justifyContent", "center"); ("pointerEvents", "none");
   ("overflow", "hidden")].

(** A mounted component between two ticks when some frame sets may be
    empty: as [Settled], but the frame index of an empty active set is 0,
    and the handle of the live interval is one the host has given out. *)
Record Steady (p : Props) (w : World) (i : nat * nat) : Prop := MkSteady {
  steady_props : props w = p;
  steady_mounted : mounted w = true;
  steady_state : state w = stateOf i;
  steady_range :
    exists active,
      frameSets p !! i.1 = Some active /\
      (i.2 < Nat.max 1 (length active))%nat;
  steady_effect :
    exists captured interval,
      (forall active, frameSets p !! i.1 = Some active ->
                      length captured = length active) /\
      effect w = Some (deps p captured, interval) /\
      Host.live (timers w)
      = {[ interval := ({| cb_currentFrameSet := captured;
                           cb_frameSets := frameSets p |}, frameRate' p) ]} /\
      (interval < Host.fresh (timers w))%nat;
}.

(** An animation with an empty frame set between two others. *)
Definition gapProps : Props :=
  {| frameSets := [["A"]; []; ["B"; "C"]];
     frameRate := None; color := None; fontSize := None;
     className := None; style := None |}.

(** The scenario with a [style] prop that moves the container and adds a
    property. *)
Definition styledProps : Props :=
  {| frameSets := [["A"; "B"]; ["C"; "D"; "E"]];
     frameRate := Some 200; color := None; fontSize := None;
     className := None;
     style := Some [("top", "10px"); ("opacity", "0.5")] |}.

End AsciiBackground.

(** ** ScrollingAscii: one list of frames in a scrolling layer *)

Module ScrollingAscii.

(** The [direction] prop: ['left' | 'right']. *)
Inductive Direction : Type :=
| Left
| Right.

#[global] Instance Direction_eq_dec : EqDecision Direction.
Proof. solve_decision. Defined.

(** The string value of a direction, as the template literal prints it. *)
Definition directionString (d : Direction) : string :=
  match d with
  | Left => "left"
  | Right => "right"
  end.

(** [ScrollingAsciiProps]; an optional prop that is absent is [None]. *)
Record Props : Type := MkProps {
  frames : list string;
  frameRate : option Z;
  scrollDuration : option Z;
  color : option string;
  fontSize : option Z;
  direction : option Direction;
}.

(** The defaults of the parameter destructuring. *)
Definition frameRate' (p : Props) : Z := default 150 (frameRate p).
Definition scrollDuration' (p : Props) : Z := default 20 (scrollDuration p).
Definition color' (p : Props) : string := default "#3a3a3a" (color p).
Definition fontSize' (p : Props) : Z := default 12 (fontSize p).
Definition direction' (p : Props) : Direction := default Right (direction p).

Definition containerStyle : list (string * string) :=
  [("position", "fixed"); ("bottom", "0"); ("left", "0");
   ("width", "100%"); ("height", "auto"); ("zIndex", "-1");
   ("pointerEvents", "none"); ("overflow", "hidden")].

(** [`scroll-${direction} ${scrollDuration}s linear infinite`] *)
Definition animation (p : Props) : string :=
  "scroll-" +:+ directionString (direction' p) +:+ " " +:+
  pretty (scrollDuration' p) +:+ "s linear infinite".

Definition scrollStyle (p : Props) : list (string * string) :=
  [("display", "inline-block"); ("animation", animation p)].

Definition preStyle (p : Props) : list (string * string) :=
  [("fontFamily", "'Courier New', Courier, monospace");
   ("fontSize", pretty (fontSize' p) +:+ "px");
   ("lineHeight", "1.1");
   ("color", color' p);
   ("whiteSpace", "pre");
   ("userSelect", "none");
   ("margin", "0")].

(** One evaluation of the component body with the given [frameIndex].
    Indexing an array never throws: [frames[frameIndex]] is the frame or
    [undefined], and an [undefined] child shows nothing. *)
Definition render (p : Props) (frameIndex : JS.num) : Dom.Element :=
  Dom.Elem "div" None None containerStyle None
    [Dom.Elem "div" None None (scrollStyle p) None
       [Dom.Elem "pre" None None (preStyle p)
          (JS.index (frames p) frameIndex) []]].

(** The text shown by a rendered tree: the content of its [pre]. *)
Definition displayed (e : Dom.Element) : option string :=
  match Dom.children e with
  | layer :: _ =>
      match Dom.children layer with
      | pre :: _ => Dom.text pre
      | [] => None
      end
  | [] => None
  end.

(** The value of a property of an inline style. *)
Fixpoint property (k : string) (o : list (string * string)) : option string :=
  match o with
  | [] => None
  | (k', v) :: rest => if String.eqb k k' then Some v else property k rest
  end.

(** The scrolling layer of a rendered tree and its [animation] style. *)
Definition layerAnimation (e : Dom.Element) : option string :=
  match Dom.children e with
  | layer :: _ => property "animation" (Dom.style layer)
  | [] => None
  end.

(** The first word of an [animation] shorthand, which is where the
    component writes the name of the keyframes. *)
Fixpoint firstWord (s : string) : string :=
  match s with
  | EmptyString => EmptyString
  | String c rest =>
      if Ascii.eqb c " "%char then EmptyString else String c (firstWord rest)
  end.

(** *** The keyframes effect *)

Definition styleId : string := "ascii-scroll-keyframes".

Definition newline : string := String (ascii_of_nat 10) EmptyString.

(** The template literal assigned to [styleSheet.textContent], line by
    line. *)
Definition keyframesLines : list string :=
  [ "";
    "        @keyframes scroll-right {";
    "          from { transform: translateX(-100%); }";
    "          to { transform: translateX(100vw); }";
    "        }";
    "        @keyframes scroll-left {";
    "          from { transform: translateX(100vw); }";
    "          to { transform: translateX(-100%); }";
    "        }";
    "      " ].

Fixpoint joinLines (ls : list string) : string :=
  match ls with
  | [] => ""
  | [l] => l
  | l :: rest => l +:+ newline +:+ joinLines rest
  end.

Definition keyframesText : string := joinLines keyframesLines.

(** [document.createElement('style')] with its [id] and [textContent]. *)
Definition styleSheet : Dom.Element :=
  Dom.Elem "style" (Some styleId) None [] (Some keyframesText) [].

(** The body of the second effect: inject the keyframes if no element
    with the id is present. *)
Definition injectKeyframes (d : Dom.Document) : Dom.Document :=
  match Dom.getElementById styleId d with
  | Some _ => d
  | None =>
      {| Dom.head := Dom.appendChild styleSheet (Dom.head d);
         Dom.body := Dom.body d |}
  end.

(** Whether [needle] occurs in [hay]. *)
Fixpoint occursIn (needle hay : string) : bool :=
  String.prefix needle hay ||
  match hay with
  | EmptyString => false
  | String _ rest => occursIn needle rest
  end.

(** The keyframes block that a style sheet text must hold for a layer to
    travel in the given direction: towards the right edge from beyond the
    left one, or the other way round. *)
Definition keyframesBlock (d : Direction) : string :=
  match d with
  | Right =>
      joinLines
        [ "@keyframes scroll-right {";
          "          from { transform: translateX(-100%); }";
          "          to { transform: translateX(100vw); }";
          "        }" ]
  | Left =>
      joinLines
        [ "@keyframes scroll-left {";
          "          from { transform: translateX(100vw); }";
          "          to { transform: translateX(-100%); }";
          "        }" ]
  end.

(** *** The interval effect *)

(** What the interval callback closes over: [frames]. *)
Record Callback : Type := MkCallback {
  cb_frames : list string;
}.

(** The interval callback:
    [setFrameIndex((prev) => (prev + 1) % frames.length)]. *)
Definition intervalCallback (cb : Callback) (prev : JS.num) : JS.num :=
  JS.rem (JS.add prev (JS.Int 1)) (JS.len (cb_frames cb)).

(** The dependency array [[frameRate, frames.length]]. *)
Definition Deps : Type := (Z * JS.num)%type.

Definition deps (p : Props) : Deps := (frameRate' p, JS.len (frames p)).

(** A component instance with the host's timers and the page's document.
    [effect] records the last run of the interval effect: its
    dependencies and the handle that its cleanup will clear.
    [dispatches] counts the calls of the interval callback. *)
Record World : Type := MkWorld {
  props : Props;
  frameIndex : JS.num;
  mounted : bool;
  effect : option (Deps * nat);
  timers : Host.Timers Callback;
  document : Dom.Document;
  dispatches : nat;
}.

(** Running the interval effect: [setInterval(callback, frameRate)]. *)
Definition runEffect (w : World) : World :=
  let cb := {| cb_frames := frames (props w) |} in
  let '(interval, t) := Host.setInterval cb (frameRate' (props w)) (timers w) in
  {| props := props w; frameIndex := frameIndex w; mounted := mounted w;
     effect := Some (deps (props w), interval);
     timers := t; document := document w; dispatches := dispatches w |}.

(** Running its cleanup: [clearInterval(interval)]. *)
Definition runCleanup (w : World) : World :=
  match effect w with
  | Some (_, interval) =>
      {| props := props w; frameIndex := frameIndex w; mounted := mounted w;
         effect := None;
         timers := Host.clearInterval interval (timers w);
         document := document w; dispatches := dispatches w |}
  | None => w
  end.

(** The commit of a later render: the interval effect runs again, after
    its cleanup, exactly when a dependency has changed; the keyframes
    effect, whose dependency array is empty, does not run again. *)
Definition commit (w : World) : World :=
  match effect w with
  | None => runEffect w
  | Some (old, _) =>
      if decide (old = deps (props w)) then w else runEffect (runCleanup w)
  end.

(** Mounting the component on a page: the first render, then the interval
    effect and the keyframes effect, in the order they are declared. *)
Definition mount (p : Props) (d : Dom.Document) : World :=
  let w := runEffect {| props := p; frameIndex := JS.Int 0; mounted := true;
                        effect := None; timers := Host.noTimers;
                        document := d; dispatches := 0 |} in
  {| props := props w; frameIndex := frameIndex w; mounted := mounted w;
     effect := effect w; timers := timers w;
     document := injectKeyframes (document w);
     dispatches := dispatches w |}.

(** Mounting several instances on one page, one after the other: each
    finds the document left by those mounted before it. *)
Definition mountAll (ps : list Props) (d : Dom.Document) : Dom.Document :=
  fold_left (fun page p => document (mount p page)) ps d.

(** Unmounting runs the cleanup of the interval effect; the keyframes
    effect has none. *)
Definition unmount (w : World) : World :=
  let w' := runCleanup w in
  {| props := props w'; frameIndex := frameIndex w'; mounted := false;
     effect := effect w'; timers := timers w'; document := document w';
     dispatches := dispatches w' |}.

(** The host fires the interval with the given handle.  A handle that is
    not live has no callback to call.  The callback of a live one updates
    the state; a mounted component is then rendered again. *)
Definition fire (handle : nat) (w : World) : World :=
  match Host.live (timers w) !! handle with
  | None => w
  | Some (cb, _) =>
      let w' := {| props := props w;
                   frameIndex := intervalCallback cb (frameIndex w);
                   mounted := mounted w; effect := effect w;
                   timers := timers w; document := document w;
                   dispatches := S (dispatches w) |} in
      if mounted w then commit w' else w'
  end.

(** One tick: the host fires the interval of the component's effect. *)
Definition tick (w : World) : World :=
  match effect w with
  | Some (_, interval) => fire interval w
  | None => w
  end.

(** What the host may do to a component. *)
Inductive Event : Type :=
| Fire (handle : nat)
| Unmount.

Definition step (e : Event) (w : World) : World :=
  match e with
  | Fire handle => fire handle w
  | Unmount => unmount w
  end.

Definition run (es : list Event) (w : World) : World :=
  fold_left (fun w e => step e w) es w.

(** The frame on screen. *)
Definition view (w : World) : option string :=
  displayed (render (props w) (frameIndex w)).

(** [n] ticks in a row. *)
Fixpoint ticks (n : nat) (w : World) : World :=
  match n with
  | O => w
  | S k => ticks k (tick w)
  end.

(** *** Invariants *)

(** A mounted component between two ticks: the one live interval is the
    one of the effect, whose callback captured the frames of the props. *)
Record Running (p : Props) (d : Dom.Document) (w : World) : Prop := MkRunning {
  running_props : props w = p;
  running_mounted : mounted w = true;
  running_document : document w = d;
  running_effect :
    exists interval,
      effect w = Some (deps p, interval) /\
      Host.live (timers w)
      = {[ interval := ({| cb_frames := frames p |}, frameRate' p) ]};
}.

(** The timers of a component are in order: a mounted one has exactly the
    interval of its last effect run live, an unmounted one has none. *)
Definition Tidy (w : World) : Prop :=
  match effect w with
  | Some (_, interval) =>
      mounted w = true /\
      exists cb, Host.live (timers w) = {[ interval := cb ]}
  | None => mounted w = false /\ Host.live (timers w) = ∅
  end.

(** *** The names of the documentation *)

(** The documentation calls the two directions forward and reverse:
    forward is the default, ['right'], in which the layer travels towards
    growing x; reverse is ['left']. *)
Inductive SpecDirection : Type :=
| forward
| reverse.

Definition ofSpec (d : SpecDirection) : Direction :=
  match d with
  | forward => Right
  | reverse => Left
  end.

(** *** Concrete inputs *)

Definition emptyDocument : Dom.Document :=
  {| Dom.head := Dom.Elem "head" None None [] None [];
     Dom.body := Dom.Elem "body" None None [] None [] |}.

(** The scenario of the documentation: two frames, 150 ms per frame, 20 s
    per crossing, the default direction given explicitly. *)
Definition scenarioProps : Props :=
  {| frames := ["X"; "Y"]; frameRate := Some 150; scrollDuration := Some 20;
     color := None; fontSize := None; direction := Some Right |}.

(** The same with no frames at all. *)
Definition noFramesProps : Props :=
  {| frames := []; frameRate := None; scrollDuration := None;
     color := None; fontSize := None; direction := None |}.

(** A page that uses the identifier of the keyframes for a [div] of its
    own. *)
Definition takenDocument : Dom.Document :=
  {| Dom.head := Dom.Elem "head" None None [] None [];
     Dom.body :=
       Dom.Elem "body" None None [] None
         [Dom.Elem "div" (Some styleId) None [] None []] |}.

End ScrollingAscii.

(** * Properties *)

(** ** JavaScript arithmetic on the values that occur *)

Lemma index_of_nat {A : Type} (arr : list A) (n : nat) :
  JS.index arr (JS.Int (Z.of_nat n)) = arr !! n.
Proof.
  unfold JS.index.
  destruct (Z.ltb_spec (Z.of_nat n) 0) as [Hneg | _]; [lia |].
  by rewrite Nat2Z.id.
Qed.

Lemma rem_succ_of_nat (s n : nat) :
  n ≠ 0%nat ->
  JS.rem (JS.add (JS.Int (Z.of_nat s)) (JS.Int 1)) (JS.Int (Z.of_nat n))
  = JS.Int (Z.of_nat (S s mod n)).
Proof.
  intros Hn. cbn [JS.add JS.rem].
  destruct (Z.eqb_spec (Z.of_nat n) 0) as [H0 | _]; [lia |].
  f_equal. rewrite Z.rem_mod_nonneg by lia.
  rewrite Nat2Z.inj_mod. f_equal. lia.
Qed.

Lemma ge_succ_of_nat (f n : nat) :
  JS.ge (JS.add (JS.Int (Z.of_nat f)) (JS.Int 1)) (JS.Int (Z.of_nat n))
  = bool_decide (n ≤ S f)%nat.
Proof.
  cbn [JS.add JS.ge]. unfold Z.geb.
  destruct (Z.compare_spec (Z.of_nat f + 1) (Z.of_nat n));
    case_bool_decide; done || lia.
Qed.

(** ** AsciiBackground *)

Section Cycler.
Import AsciiBackground.

Variable p : Props.
Local Abbreviation fs := (frameSets p).

Hypothesis nonEmpty : fs ≠ [].
Hypothesis setsNonEmpty : Forall (fun s => s ≠ []) fs.

Lemma length_sets_pos : (0 < length fs)%nat.
Proof. destruct fs; [done | cbn; lia]. Qed.

Lemma active_pos (s : nat) (active : list string) :
  fs !! s = Some active -> (0 < length active)%nat.
Proof.
  intros Hs. apply list_elem_of_lookup_2 in Hs.
  rewrite Forall_forall in setsNonEmpty.
  specialize (setsNonEmpty _ Hs). destruct active; [done | cbn; lia].
Qed.

Lemma indexStep_inRange (i : nat * nat) : inRange fs i -> inRange fs (indexStep fs i).
Proof.
  intros (active & Hs & Hf). unfold indexStep. rewrite Hs.
  case_bool_decide.
  - assert (Hlt : (S i.1 mod length fs < length fs)%nat)
      by (apply Nat.mod_upper_bound; pose proof length_sets_pos; lia).
    destruct (lookup_lt_is_Some_2 _ _ Hlt) as [next Hnext].
    exists next. cbn. split; [done |]. by eapply active_pos.
  - exists active. cbn. split; [done | lia].
Qed.

Lemma mount_settled :
  exists w, mount p = JS.Ok w /\ Settled p w (0%nat, 0%nat) /\ dispatches w = 0%nat.
Proof.
  pose proof length_sets_pos as Hpos.
  destruct (lookup_lt_is_Some_2 fs 0 Hpos) as [first Hfirst].
  unfold mount, commit, render, currentFrameSet. cbn [props state effect].
  change (setIndex initialState) with (JS.Int (Z.of_nat 0)).
  rewrite index_of_nat. rewrite Hfirst.
  eexists. split; [reflexivity |]. split; [| reflexivity].
  split; cbn; try done.
  - exists first. cbn. split; [done |]. by eapply active_pos.
  - exists first, 1%nat. split; [| split; [done |]].
    + intros active. cbn. congruence.
    + by rewrite insert_empty.
Qed.

Lemma intervalCallback_indexStep (captured active : list string) (i : nat * nat) :
  fs !! i.1 = Some active ->
  length captured = length active ->
  intervalCallback {| cb_currentFrameSet := captured; cb_frameSets := fs |}
    (stateOf i)
  = stateOf (indexStep fs i).
Proof.
  intros Hs Hlen.
  unfold intervalCallback, frameUpdater, setUpdater, indexStep, stateOf, JS.len.
  cbn [frameIndex setIndex cb_currentFrameSet cb_frameSets].
  rewrite ge_succ_of_nat, Hlen, Hs.
  case_bool_decide; cbn [fst snd].
  - by rewrite rem_succ_of_nat by (pose proof length_sets_pos; lia).
  - cbn [JS.add]. do 2 f_equal. lia.
Qed.

Lemma tick_settled (w : World) (i : nat * nat) :
  Settled p w i ->
  exists w', tick w = JS.Ok w' /\ Settled p w' (indexStep fs i)
             /\ dispatches w' = S (dispatches w).
Proof.
  intros [Hprops Hmounted Hstate Hrange (captured & interval & Hlen & Heff & Hlive)].
  pose proof (indexStep_inRange i Hrange) as Hrange'.
  destruct Hrange as (active & Hs & Hf).
  destruct (Hrange') as (active' & Hs' & Hf').
  specialize (Hlen _ Hs).
  unfold tick, fire. rewrite Heff, Hlive, lookup_singleton_eq, Hmounted, Hstate.
  rewrite (intervalCallback_indexStep captured active i Hs Hlen).
  unfold commit, render, currentFrameSet.
  cbn [props state effect]. rewrite ?Hprops.
  change (setIndex (stateOf (indexStep fs i)))
    with (JS.Int (Z.of_nat (indexStep fs i).1)).
  rewrite index_of_nat, Hs'.
  case_decide as Hdeps.
  - eexists. split; [reflexivity |]. split; [| reflexivity].
    split; cbn; try done.
    exists captured, interval. split; [| done].
    intros a Ha. assert (a = active') as -> by congruence.
    unfold deps, JS.len in Hdeps.
    assert (Z.of_nat (length captured) = Z.of_nat (length active'))
      by congruence.
    lia.
  - eexists. split; [reflexivity |]. split; [| reflexivity].
    split; cbn; try done.
    exists active'. eexists. split; [| split; [reflexivity |]].
    + intros a Ha. congruence.
    + cbn. by rewrite Hlive, delete_singleton_eq, insert_empty.
Qed.

Lemma ticks_settled (n : nat) (w : World) (i : nat * nat) :
  Settled p w i ->
  exists w', ticks n w = JS.Ok w' /\ Settled p w' (indexSteps fs n i)
             /\ dispatches w' = (n + dispatches w)%nat.
Proof.
  revert w i. induction n as [| n IH]; intros w i Hw.
  - exists w. by cbn.
  - destruct (tick_settled w i Hw) as (w1 & Htick & Hw1 & Hd1).
    destruct (IH w1 _ Hw1) as (w2 & Hticks & Hw2 & Hd2).
    exists w2. cbn [ticks indexSteps]. rewrite Htick. cbn [JS.bind].
    split; [done |]. split; [done | lia].
Qed.

(** Every number of ticks after the mount leaves a settled component. *)
Lemma mounted_ticks_settled (n : nat) :
  exists w, JS.bind (mount p) (ticks n) = JS.Ok w
            /\ Settled p w (indexSteps fs n (0%nat, 0%nat))
            /\ dispatches w = n.
Proof.
  destruct mount_settled as (w0 & Hmount & Hw0 & Hd0).
  destruct (ticks_settled n w0 _ Hw0) as (w & Hticks & Hw & Hd).
  exists w. rewrite Hmount. cbn [JS.bind]. split; [done |]. split; [done | lia].
Qed.

Lemma settled_indicesValid (w : World) (i : nat * nat) :
  Settled p w i -> indicesValid p (state w).
Proof.
  intros [_ _ Hstate (active & Hs & Hf) _].
  exists (Z.of_nat i.1), (Z.of_nat i.2), active.
  rewrite index_of_nat. pose proof (lookup_lt_Some _ _ _ Hs).
  repeat split; try done; lia.
Qed.

(** *** The walk of the indices *)

Lemma indexSteps_add (a b : nat) (i : nat * nat) :
  indexSteps fs (a + b) i = indexSteps fs b (indexSteps fs a i).
Proof. revert i. induction a as [| a IH]; intros i; cbn; [done | apply IH]. Qed.

(** Inside a set the frame index walks up. *)
Lemma indexSteps_within (k s f : nat) (active : list string) :
  fs !! s = Some active ->
  (f + k < length active)%nat ->
  indexSteps fs k (s, f) = (s, (f + k)%nat).
Proof.
  intros Hs. revert f. induction k as [| k IH]; intros f Hlt; cbn [indexSteps].
  - by rewrite Nat.add_0_r.
  - unfold indexStep. cbn [fst snd]. rewrite Hs.
    rewrite bool_decide_eq_false_2 by lia.
    rewrite IH by lia. f_equal. lia.
Qed.

(** A whole set takes as many ticks as it has frames, and hands over to
    the next set. *)
Lemma indexSteps_set (s : nat) (active : list string) :
  fs !! s = Some active ->
  indexSteps fs (length active) (s, 0%nat) = ((S s mod length fs)%nat, 0%nat).
Proof.
  intros Hs. pose proof (active_pos s active Hs) as Hpos.
  replace (length active) with (pred (length active) + 1)%nat at 1 by lia.
  rewrite indexSteps_add, (indexSteps_within _ _ _ active Hs) by lia.
  cbn [indexSteps]. unfold indexStep. cbn [fst snd]. rewrite Hs.
  by rewrite bool_decide_eq_true_2 by lia.
Qed.

(** After the frames of the first [j] sets the component is at the start
    of set [j], or of the first set again when there is no set [j]. *)
Lemma indexSteps_prefix (j : nat) :
  (j <= length fs)%nat ->
  indexSteps fs (sum_list_with length (take j fs)) (0%nat, 0%nat)
  = ((j mod length fs)%nat, 0%nat).
Proof.
  pose proof length_sets_pos as Hpos.
  induction j as [| j IH]; intros Hj.
  - cbn. by rewrite Nat.Div0.mod_0_l.
  - destruct (lookup_lt_is_Some_2 fs j) as [active Hs]; [lia |].
    rewrite (take_S_r _ _ _ Hs), sum_list_with_app, indexSteps_add.
    rewrite IH by lia. rewrite (Nat.mod_small j) by lia.
    cbn [sum_list_with]. rewrite Nat.add_0_r.
    by apply indexSteps_set.
Qed.

Lemma indexSteps_cycle :
  indexSteps fs (sum_list_with length fs) (0%nat, 0%nat) = (0%nat, 0%nat).
Proof.
  pose proof (indexSteps_prefix (length fs)) as H.
  rewrite take_ge, Nat.Div0.mod_same in H by lia. by apply H.
Qed.

End Cycler.

Section CyclerBehaviour.
Import AsciiBackground.

Lemma view_settled (p : Props) (w : World) (i : nat * nat) :
  Settled p w i ->
  view w = frameSets p !! i.1 ≫= fun active => active !! i.2.
Proof.
  intros [Hprops _ Hstate (active & Hs & _) _].
  unfold view, render, currentFrameSet. rewrite Hprops, Hstate.
  unfold stateOf. cbn [frameIndex setIndex].
  rewrite index_of_nat, Hs.
  cbn [displayed Dom.children Dom.text mbind option_bind].
  by rewrite index_of_nat.
Qed.

(** C1. With non-empty frame sets, each tick adds one to the frame index;
    when the sum reaches the length of the active set, the frame index
    becomes 0 and the set index becomes the next one modulo the number of
    sets; a tick that changes the set index is such a tick. *)
Theorem tick_advances_frame_then_set (p : Props) (n : nat) :
  frameSets p ≠ [] ->
  Forall (fun s => s ≠ []) (frameSets p) ->
  exists (w w' : World) (si fi : Z) (active : list string),
    JS.bind (mount p) (ticks n) = JS.Ok w /\
    state w = {| frameIndex := JS.Int fi; setIndex := JS.Int si |} /\
    JS.index (frameSets p) (JS.Int si) = Some active /\
    tick w = JS.Ok w' /\
    state w'
    = (if Z.of_nat (length active) <=? fi + 1
       then {| frameIndex := JS.Int 0;
               setIndex :=
                 JS.Int ((si + 1) mod Z.of_nat (length (frameSets p))) |}
       else {| frameIndex := JS.Int (fi + 1); setIndex := JS.Int si |}) /\
    (setIndex (state w') ≠ setIndex (state w) ->
     Z.of_nat (length active) <= fi + 1).
Proof.
  intros Hne Hsets.
  destruct (mounted_ticks_settled p Hne Hsets n) as (w & Hrun & Hw & _).
  destruct (tick_settled p Hne Hsets w _ Hw) as (w' & Htick & Hw' & _).
  set (i := indexSteps (frameSets p) n (0%nat, 0%nat)) in *.
  destruct (settled_range _ _ _ Hw) as (active & Hs & Hf).
  exists w, w', (Z.of_nat i.1), (Z.of_nat i.2), active.
  rewrite index_of_nat.
  rewrite (settled_state _ _ _ Hw'), (settled_state _ _ _ Hw).
  unfold indexStep, stateOf. rewrite Hs. cbn [setIndex].
  repeat split; try done.
  - case_bool_decide; cbn [fst snd].
    + rewrite (proj2 (Z.leb_le _ _)) by lia.
      do 2 f_equal. rewrite Nat2Z.inj_mod. f_equal. lia.
    + rewrite (proj2 (Z.leb_gt _ _)) by lia.
      do 2 f_equal. lia.
  - case_bool_decide; cbn [fst snd]; [lia | done].
Qed.

Lemma tick_advances_frame_then_set_witness :
  exists (w w' : World) (si fi : Z) (active : list string),
    JS.bind (mount scenarioProps) (ticks 1) = JS.Ok w /\
    state w = {| frameIndex := JS.Int fi; setIndex := JS.Int si |} /\
    JS.index (frameSets scenarioProps) (JS.Int si) = Some active /\
    tick w = JS.Ok w' /\
    state w'
    = (if Z.of_nat (length active) <=? fi + 1
       then {| frameIndex := JS.Int 0;
               setIndex :=
                 JS.Int ((si + 1)
                         mod Z.of_nat (length (frameSets scenarioProps))) |}
       else {| frameIndex := JS.Int (fi + 1); setIndex := JS.Int si |}) /\
    (setIndex (state w') ≠ setIndex (state w) ->
     Z.of_nat (length active) <= fi + 1).
Proof.
  apply (tick_advances_frame_then_set scenarioProps 1).
  - discriminate.
  - repeat constructor; discriminate.
Defined.

(** C2. With non-empty frame sets, the component mounted in state (0, 0)
    is back in state (0, 0) after as many ticks as there are frames in
    all the sets together. *)
Theorem full_cycle_returns_to_start (p : Props) :
  frameSets p ≠ [] ->
  Forall (fun s => s ≠ []) (frameSets p) ->
  exists w0 w : World,
    mount p = JS.Ok w0 /\
    state w0 = {| frameIndex := JS.Int 0; setIndex := JS.Int 0 |} /\
    ticks (sum_list_with length (frameSets p)) w0 = JS.Ok w /\
    state w = {| frameIndex := JS.Int 0; setIndex := JS.Int 0 |}.
Proof.
  intros Hne Hsets.
  destruct (mount_settled p Hne Hsets) as (w0 & Hmount & Hw0 & _).
  destruct (ticks_settled p Hne Hsets (sum_list_with length (frameSets p)) w0 _ Hw0)
    as (w & Hticks & Hw & _).
  exists w0, w. rewrite (indexSteps_cycle p Hne Hsets) in Hw.
  repeat split; try done.
  - apply (settled_state _ _ _ Hw0).
  - apply (settled_state _ _ _ Hw).
Qed.

Lemma full_cycle_returns_to_start_witness :
  exists w0 w : World,
    mount scenarioProps = JS.Ok w0 /\
    state w0 = {| frameIndex := JS.Int 0; setIndex := JS.Int 0 |} /\
    ticks (sum_list_with length (frameSets scenarioProps)) w0 = JS.Ok w /\
    state w = {| frameIndex := JS.Int 0; setIndex := JS.Int 0 |}.
Proof.
  apply (full_cycle_returns_to_start scenarioProps).
  - discriminate.
  - repeat constructor; discriminate.
Defined.

(** C5. With non-empty frame sets, the indices are in range in the initial
    state (0, 0), and in range before and after every tick: a tick updates
    the two of them in one step. *)
Theorem indices_stay_in_range (p : Props) :
  frameSets p ≠ [] ->
  Forall (fun s => s ≠ []) (frameSets p) ->
  exists w0 : World,
    mount p = JS.Ok w0 /\
    state w0 = {| frameIndex := JS.Int 0; setIndex := JS.Int 0 |} /\
    indicesValid p (state w0) /\
    forall n : nat,
      exists w w' : World,
        ticks n w0 = JS.Ok w /\ indicesValid p (state w) /\
        tick w = JS.Ok w' /\ indicesValid p (state w').
Proof.
  intros Hne Hsets.
  destruct (mount_settled p Hne Hsets) as (w0 & Hmount & Hw0 & _).
  exists w0. repeat split; try done.
  - apply (settled_state _ _ _ Hw0).
  - by eapply settled_indicesValid.
  - intros n.
    destruct (ticks_settled p Hne Hsets n w0 _ Hw0) as (w & Hticks & Hw & _).
    destruct (tick_settled p Hne Hsets w _ Hw) as (w' & Htick & Hw' & _).
    exists w, w'.
    repeat split; try done; by eapply settled_indicesValid.
Qed.

Lemma indices_stay_in_range_witness :
  exists w0 : World,
    mount scenarioProps = JS.Ok w0 /\
    state w0 = {| frameIndex := JS.Int 0; setIndex := JS.Int 0 |} /\
    indicesValid scenarioProps (state w0) /\
    forall n : nat,
      exists w w' : World,
        ticks n w0 = JS.Ok w /\ indicesValid scenarioProps (state w) /\
        tick w = JS.Ok w' /\ indicesValid scenarioProps (state w').
Proof.
  apply (indices_stay_in_range scenarioProps).
  - discriminate.
  - repeat constructor; discriminate.
Defined.

Lemma scenario_period (p : Props) (q : nat) :
  frameSets p = frameSets scenarioProps ->
  indexSteps (frameSets p) (5 * q) (0%nat, 0%nat) = (0%nat, 0%nat).
Proof.
  intros ->. induction q as [| q IH]; [done |].
  replace (5 * S q)%nat with (5 + 5 * q)%nat by lia.
  by rewrite indexSteps_add.
Qed.

(** C8. With the frame sets [["A","B"], ["C","D","E"]], the frames shown
    from the mount on, tick after tick, are A, B, C, D, E, A, B, C, ...:
    after [n] ticks the frame on screen is the one at position [n mod 5]
    of A, B, C, D, E. *)
Theorem scenario_shows_each_frame_in_turn (p : Props) (n : nat) :
  frameSets p = [["A"; "B"]; ["C"; "D"; "E"]] ->
  exists w : World,
    JS.bind (mount p) (ticks n) = JS.Ok w /\
    view w = ["A"; "B"; "C"; "D"; "E"] !! (n mod 5)%nat.
Proof.
  intros Hfs.
  assert (Hne : frameSets p ≠ []) by (by rewrite Hfs).
  assert (Hsets : Forall (fun s => s ≠ []) (frameSets p))
    by (rewrite Hfs; repeat constructor; discriminate).
  destruct (mounted_ticks_settled p Hne Hsets n) as (w & Hrun & Hw & _).
  exists w. split; [done |].
  rewrite (view_settled p w _ Hw).
  assert (Hfold : indexSteps (frameSets p) n (0%nat, 0%nat)
                  = indexSteps (frameSets p) (n mod 5) (0%nat, 0%nat)).
  { rewrite (Nat.div_mod_eq n 5) at 1.
    by rewrite indexSteps_add, (scenario_period p _ Hfs). }
  rewrite Hfold, Hfs.
  assert (Hlt : (n mod 5 < 5)%nat) by (apply Nat.mod_upper_bound; lia).
  destruct (n mod 5)%nat as [| [| [| [| [| r]]]]]; try done; lia.
Qed.

Lemma scenario_shows_each_frame_in_turn_witness :
  exists w : World,
    JS.bind (mount scenarioProps) (ticks 7) = JS.Ok w /\
    view w = ["A"; "B"; "C"; "D"; "E"] !! (7 mod 5)%nat.
Proof. apply (scenario_shows_each_frame_in_turn scenarioProps 7). reflexivity. Defined.

(** C9. With exactly one frame set of exactly one frame, both indices are
    0 after any number of ticks. *)
Theorem single_frame_never_moves (p : Props) (frame : string) (n : nat) :
  frameSets p = [[frame]] ->
  exists w : World,
    JS.bind (mount p) (ticks n) = JS.Ok w /\
    state w = {| frameIndex := JS.Int 0; setIndex := JS.Int 0 |}.
Proof.
  intros Hfs.
  assert (Hne : frameSets p ≠ []) by (by rewrite Hfs).
  assert (Hsets : Forall (fun s => s ≠ []) (frameSets p))
    by (rewrite Hfs; repeat constructor; discriminate).
  destruct (mounted_ticks_settled p Hne Hsets n) as (w & Hrun & Hw & _).
  exists w. split; [done |].
  rewrite (settled_state _ _ _ Hw), Hfs.
  assert (Hstay : indexSteps [[frame]] n (0%nat, 0%nat) = (0%nat, 0%nat))
    by (clear; induction n as [| n IH]; done).
  by rewrite Hstay.
Qed.

Lemma single_frame_never_moves_witness :
  exists w : World,
    JS.bind (mount singleFrameProps) (ticks 4) = JS.Ok w /\
    state w = {| frameIndex := JS.Int 0; setIndex := JS.Int 0 |}.
Proof. apply (single_frame_never_moves singleFrameProps "A" 4). reflexivity. Defined.

End CyclerBehaviour.

(** *** Teardown of AsciiBackground *)

Section CyclerTeardown.
Import AsciiBackground.

Variable p : Props.
Hypothesis nonEmpty : frameSets p ≠ [].

(** A render with the set index in range does not throw, and the commit of
    its effect leaves one live interval. *)
Lemma commit_alive (w : World) (s : nat) (f : JS.num) :
  props w = p ->
  state w = {| frameIndex := f; setIndex := JS.Int (Z.of_nat s) |} ->
  (s < length (frameSets p))%nat ->
  mounted w = true ->
  match effect w with
  | Some (_, interval) =>
      exists captured delay,
        Host.live (timers w)
        = {[ interval := ({| cb_currentFrameSet := captured;
                             cb_frameSets := frameSets p |}, delay) ]}
  | None => Host.live (timers w) = ∅
  end ->
  exists w', commit w = JS.Ok w' /\ Alive p w'.
Proof.
  intros Hprops Hstate Hs Hmounted Htimers.
  destruct (lookup_lt_is_Some_2 _ _ Hs) as [active Hactive].
  unfold commit, render, currentFrameSet. rewrite Hprops, Hstate.
  cbn [setIndex]. rewrite index_of_nat, Hactive.
  assert (Hstate' : exists (s' : nat) (f' : JS.num),
             state w = {| frameIndex := f'; setIndex := JS.Int (Z.of_nat s') |}
             /\ (s' < length (frameSets p))%nat) by eauto.
  destruct (effect w) as [[old interval] |] eqn:Heff.
  - case_decide.
    + eexists. split; [reflexivity |]. unfold Alive. by rewrite Heff.
    + eexists. split; [reflexivity |].
      unfold Alive, runEffect, runCleanup. rewrite Heff. cbn.
      rewrite Hprops. repeat split; try done.
      destruct Htimers as (captured & delay & ->).
      exists active, (frameRate' p).
      by rewrite delete_singleton_eq, insert_empty.
  - eexists. split; [reflexivity |].
    unfold Alive, runEffect. cbn. rewrite Hprops. repeat split; try done.
    exists active, (frameRate' p). by rewrite Htimers, insert_empty.
Qed.

Lemma mount_alive : exists w, mount p = JS.Ok w /\ Alive p w.
Proof.
  unfold mount. apply (commit_alive _ 0 (JS.Int 0)); try done.
  destruct (frameSets p); [done | cbn; lia].
Qed.

Lemma unmount_alive (w : World) : Alive p w -> Alive p (unmount w).
Proof.
  intros (Hprops & Hstate & Htimers). unfold Alive, unmount, runCleanup.
  destruct (effect w) as [[old interval] |] eqn:Heff; cbn.
  - destruct Htimers as (_ & captured & delay & ->).
    repeat split; try done. apply delete_singleton_eq.
  - rewrite Heff. by destruct Htimers.
Qed.

(** Unmounting leaves no live interval. *)
Lemma unmount_no_timers (w : World) :
  Alive p w -> Host.live (timers (unmount w)) = ∅.
Proof.
  intros Hw. destruct (unmount_alive w Hw) as (_ & _ & Htimers).
  assert (Heff : effect (unmount w) = None).
  { unfold unmount, runCleanup. by destruct (effect w) as [[old interval] |] eqn:Heff. }
  rewrite Heff in Htimers. by destruct Htimers.
Qed.

(** With no live interval, no handle has a callback. *)
Lemma fire_no_timers (handle : nat) (w : World) :
  Host.live (timers w) = ∅ -> fire handle w = JS.Ok w.
Proof. intros Hlive. unfold fire. by rewrite Hlive, lookup_empty. Qed.

(** Firing a handle, live or not, does not throw. *)
Lemma fire_alive (handle : nat) (w : World) :
  Alive p w -> exists w', fire handle w = JS.Ok w' /\ Alive p w'.
Proof.
  intros Hw. pose proof Hw as (Hprops & (s & f & Hstate & Hs) & Htimers).
  unfold fire.
  destruct (Host.live (timers w) !! handle) as [[cb delay] |] eqn:Hcb;
    [| by exists w].
  destruct (effect w) as [[old interval] |] eqn:Heff;
    [| destruct Htimers as [_ Hlive]; by rewrite Hlive, lookup_empty in Hcb].
  destruct Htimers as (Hmounted & captured & delay' & Hlive).
  rewrite Hlive in Hcb. apply lookup_singleton_Some in Hcb as [-> [= <- <-]].
  rewrite Hmounted, Hstate.
  unfold intervalCallback, frameUpdater, setUpdater.
  cbn [frameIndex setIndex cb_currentFrameSet cb_frameSets].
  destruct (JS.ge _ _).
  - unfold JS.len at 1. rewrite rem_succ_of_nat by lia.
    eapply commit_alive; cbn; try done.
    + apply Nat.mod_upper_bound. lia.
    + eauto.
  - eapply commit_alive; cbn; try done. eauto.
Qed.

(** No run of events throws. *)
Lemma run_alive (es : list Event) (w : World) :
  Alive p w -> exists w', run es w = JS.Ok w' /\ Alive p w'.
Proof.
  revert w. induction es as [| e es IH]; intros w Hw; [by exists w |].
  cbn [run]. destruct e as [handle |]; cbn [step].
  - destruct (fire_alive handle w Hw) as (w1 & -> & Hw1). apply IH, Hw1.
  - cbn [JS.bind]. apply IH. by apply unmount_alive.
Qed.

Lemma run_fires_no_timers (handles : list nat) (w : World) :
  Host.live (timers w) = ∅ -> run (Fire <$> handles) w = JS.Ok w.
Proof.
  intros Hlive. induction handles as [| h hs IH]; [done |].
  cbn [fmap list_fmap run step]. by rewrite fire_no_timers.
Qed.

End CyclerTeardown.

(** Without a frame set the first render throws: [frameSets[0]] is
    [undefined]. *)
Lemma mount_no_sets_throws (p : AsciiBackground.Props) :
  AsciiBackground.frameSets p = [] -> AsciiBackground.mount p = JS.TypeError.
Proof.
  intros Hnone. unfold AsciiBackground.mount, AsciiBackground.commit,
    AsciiBackground.render, AsciiBackground.currentFrameSet.
  cbn. by rewrite Hnone.
Qed.

(** ** The DOM *)

Section DomFacts.
Import Dom.

(** Induction on elements that also covers the children. *)
Lemma Element_children_ind (P : Element -> Prop) :
  (forall t i c s x cs, Forall P cs -> P (Elem t i c s x cs)) ->
  forall e, P e.
Proof.
  intros Hstep.
  fix self 1. intros [t i c s x cs]. apply Hstep.
  induction cs as [| child cs IH]; constructor; [apply self | apply IH].
Qed.

Lemma findId_unfold (i : string) (e : Element) :
  findId i e = if hasId i e then Some e else findInList i (children e).
Proof. by destruct e. Qed.

Lemma countId_unfold (i : string) (e : Element) :
  countId i e
  = ((if hasId i e then 1 else 0) + countInList i (children e))%nat.
Proof. by destruct e. Qed.

Lemma countInList_app (i : string) (l k : list Element) :
  countInList i (l ++ k) = (countInList i l + countInList i k)%nat.
Proof.
  induction l as [| c l IH]; [done |].
  cbn [app]. change (countInList i (c :: l ++ k))
    with (countId i c + countInList i (l ++ k))%nat.
  change (countInList i (c :: l)) with (countId i c + countInList i l)%nat.
  lia.
Qed.

Lemma findInList_app_None (i : string) (l k : list Element) :
  findInList i l = None -> findInList i (l ++ k) = findInList i k.
Proof.
  induction l as [| c l IH]; [done |].
  change (findInList i (c :: l))
    with (match findId i c with Some x => Some x | None => findInList i l end).
  cbn [app]. change (findInList i (c :: l ++ k))
    with (match findId i c with
          | Some x => Some x
          | None => findInList i (l ++ k)
          end).
  destruct (findId i c); [done | apply IH].
Qed.

(** No element is found exactly when none is counted. *)
Lemma findId_None_countId (i : string) (e : Element) :
  findId i e = None <-> countId i e = 0%nat.
Proof.
  induction e as [t j c s x cs IH] using Element_children_ind.
  rewrite findId_unfold, countId_unfold. cbn [children].
  destruct (hasId i (Elem t j c s x cs)); [split; [done | lia] |].
  cbn [Nat.add].
  induction IH as [| child cs Hchild _ IHcs]; [done |].
  change (findInList i (child :: cs))
    with (match findId i child with
          | Some y => Some y
          | None => findInList i cs
          end).
  change (countInList i (child :: cs))
    with (countId i child + countInList i cs)%nat.
  destruct (findId i child) eqn:Hfind.
  - split; [done |]. intros Hzero.
    assert (countId i child = 0%nat) as Hc by lia.
    apply Hchild in Hc. congruence.
  - assert (countId i child = 0%nat) as -> by (by apply Hchild).
    apply IHcs.
Qed.

Lemma getElementById_None_count (i : string) (d : Document) :
  getElementById i d = None <-> countInDocument i d = 0%nat.
Proof.
  unfold getElementById, countInDocument.
  pose proof (findId_None_countId i (head d)) as Hh.
  pose proof (findId_None_countId i (body d)) as Hb.
  destruct (findId i (head d)).
  - split; [done |]. intros Hzero.
    assert (countId i (head d) = 0%nat) as Hc by lia.
    apply Hh in Hc. congruence.
  - assert (countId i (head d) = 0%nat) as -> by (by apply Hh).
    apply Hb.
Qed.

Lemma countId_appendChild (i : string) (child parent : Element) :
  countId i (appendChild child parent)
  = (countId i parent + countId i child)%nat.
Proof.
  destruct parent as [t j c s x cs]. cbn [appendChild].
  rewrite !(countId_unfold i (Elem _ _ _ _ _ _)). cbn [children].
  rewrite countInList_app.
  change (countInList i [child]) with (countId i child + 0)%nat.
  change (hasId i (Elem t j c s x (cs ++ [child])))
    with (hasId i (Elem t j c s x cs)).
  lia.
Qed.

Lemma findId_appendChild (i : string) (child parent : Element) :
  findId i parent = None ->
  findId i (appendChild child parent) = findId i child.
Proof.
  destruct parent as [t j c s x cs]. cbn [appendChild].
  rewrite !(findId_unfold i (Elem _ _ _ _ _ _)). cbn [children].
  change (hasId i (Elem t j c s x (cs ++ [child])))
    with (hasId i (Elem t j c s x cs)).
  destruct (hasId i (Elem t j c s x cs)); [done |].
  intros Hnone. rewrite findInList_app_None by done.
  change (findInList i [child])
    with (match findId i child with Some y => Some y | None => None end).
  by destruct (findId i child).
Qed.

End DomFacts.

(** ** ScrollingAscii *)

Section ScrollKeyframes.
Import ScrollingAscii.

Lemma document_mount (p : Props) (d : Dom.Document) :
  document (mount p d) = injectKeyframes d.
Proof. reflexivity. Qed.

(** The registration is a no-op when the id is taken. *)
Lemma injectKeyframes_present (d : Dom.Document) (e : Dom.Element) :
  Dom.getElementById styleId d = Some e -> injectKeyframes d = d.
Proof. intros Hfound. unfold injectKeyframes. by rewrite Hfound. Qed.

(** On a page without the id the registration adds the style sheet, which
    is then the one element with the id. *)
Lemma injectKeyframes_absent (d : Dom.Document) :
  Dom.getElementById styleId d = None ->
  Dom.countInDocument styleId (injectKeyframes d) = 1%nat /\
  Dom.getElementById styleId (injectKeyframes d) = Some styleSheet.
Proof.
  intros Hnone. unfold injectKeyframes. rewrite Hnone.
  pose proof (proj1 (getElementById_None_count _ _) Hnone) as Hzero.
  unfold Dom.countInDocument, Dom.getElementById in *. cbn [Dom.head Dom.body].
  rewrite countId_appendChild.
  destruct (Dom.findId styleId (Dom.head d)) eqn:Hhead; [done |].
  rewrite findId_appendChild by done.
  change (Dom.countId styleId styleSheet) with 1%nat.
  change (Dom.findId styleId styleSheet) with (Some styleSheet).
  split; [lia | done].
Qed.

Lemma mountAll_present (ps : list Props) (d : Dom.Document) (e : Dom.Element) :
  Dom.getElementById styleId d = Some e -> mountAll ps d = d.
Proof.
  intros Hfound. induction ps as [| p ps IH]; [done |].
  unfold mountAll in *. cbn [fold_left].
  by rewrite document_mount, (injectKeyframes_present d e Hfound).
Qed.

Lemma mountAll_absent (p : Props) (ps : list Props) (d : Dom.Document) :
  Dom.getElementById styleId d = None ->
  mountAll (p :: ps) d = injectKeyframes d.
Proof.
  intros Hnone. destruct (injectKeyframes_absent d Hnone) as [_ Hfound].
  change (mountAll (p :: ps) d) with (mountAll ps (document (mount p d))).
  rewrite document_mount. by eapply mountAll_present.
Qed.

End ScrollKeyframes.

Section ScrollTicks.
Import ScrollingAscii.

Variable p : Props.
Variable d : Dom.Document.

Lemma scroll_mount_running : Running p (injectKeyframes d) (mount p d).
Proof.
  split; try done.
  exists 1%nat. split; [done |]. cbn. by rewrite insert_empty.
Qed.

(** A tick applies the callback to the frame index and leaves the rest:
    the dependencies of the effect have not changed, so the interval stays. *)
Lemma scroll_tick_running (page : Dom.Document) (w : World) :
  Running p page w ->
  Running p page (tick w)
  /\ frameIndex (tick w)
     = JS.rem (JS.add (frameIndex w) (JS.Int 1)) (JS.len (frames p))
  /\ effect (tick w) = effect w
  /\ dispatches (tick w) = S (dispatches w).
Proof.
  intros [Hprops Hmounted Hdoc (interval & Heff & Hlive)].
  unfold tick, fire. rewrite Heff, Hlive, lookup_singleton_eq, Hmounted.
  unfold commit. cbn [effect props]. rewrite ?Heff, ?Hprops.
  rewrite decide_True by done.
  split; [| done]. split; cbn; try done. by exists interval.
Qed.

Lemma scroll_ticks_running (n : nat) (page : Dom.Document) (w : World) :
  Running p page w ->
  Running p page (ticks n w) /\ dispatches (ticks n w) = (n + dispatches w)%nat.
Proof.
  revert w. induction n as [| n IH]; intros w Hw; [done |].
  destruct (scroll_tick_running page w Hw) as (Hw1 & _ & _ & Hd1).
  destruct (IH _ Hw1) as [Hw2 Hd2]. cbn [ticks]. split; [done | lia].
Qed.

Lemma ticks_succ (n : nat) (w : World) : ticks (S n) w = tick (ticks n w).
Proof. revert w. induction n as [| n IH]; intros w; [done |]. apply (IH (tick w)). Qed.

(** With frames to show, [n] ticks after the mount the frame index is
    [n mod frames.length]. *)
Lemma scroll_ticks_index (n : nat) :
  frames p ≠ [] ->
  frameIndex (ticks n (mount p d))
  = JS.Int (Z.of_nat (n mod length (frames p))).
Proof.
  intros Hne.
  assert (Hpos : (0 < length (frames p))%nat)
    by (destruct (frames p); [done | cbn; lia]).
  induction n as [| n IH].
  - by rewrite Nat.Div0.mod_0_l.
  - rewrite ticks_succ.
    destruct (scroll_ticks_running n _ _ scroll_mount_running) as [Hw _].
    destruct (scroll_tick_running _ _ Hw) as (_ & -> & _).
    rewrite IH. unfold JS.len. rewrite rem_succ_of_nat by lia.
    do 2 f_equal.
    change (S (n mod length (frames p)))%nat
      with (1 + n mod length (frames p))%nat.
    by rewrite Nat.Div0.add_mod_idemp_r.
Qed.

(** With no frames, every tick after the first finds [NaN] and leaves
    [NaN]. *)
Lemma scroll_ticks_NaN (n : nat) :
  frames p = [] ->
  frameIndex (ticks (S n) (mount p d)) = JS.NaN.
Proof.
  intros Hnone. rewrite ticks_succ.
  destruct (scroll_ticks_running n _ _ scroll_mount_running) as [Hw _].
  destruct (scroll_tick_running _ _ Hw) as (_ & -> & _).
  rewrite Hnone. by destruct (frameIndex _).
Qed.

End ScrollTicks.

Section ScrollTeardown.
Import ScrollingAscii.

Lemma scroll_runEffect_tidy (w : World) :
  mounted w = true -> Host.live (timers w) = ∅ -> Tidy (runEffect w).
Proof.
  intros Hmounted Hlive. unfold Tidy, runEffect. cbn.
  split; [done |]. eexists. rewrite Hlive. apply insert_empty.
Qed.

Lemma scroll_runCleanup_clears (w : World) :
  Tidy w ->
  Host.live (timers (runCleanup w)) = ∅ /\ effect (runCleanup w) = None
  /\ mounted (runCleanup w) = mounted w.
Proof.
  unfold Tidy, runCleanup.
  destruct (effect w) as [[dp interval] |] eqn:Heff.
  - intros (_ & cb & Hlive). cbn. rewrite Hlive. split; [| done].
    apply delete_singleton_eq.
  - intros (_ & Hlive). by rewrite Heff.
Qed.

Lemma scroll_commit_tidy (w : World) :
  Tidy w -> mounted w = true -> Tidy (commit w).
Proof.
  intros Hw Hmounted. unfold commit.
  destruct (effect w) as [[old interval] |] eqn:Heff.
  - case_decide; [done |].
    destruct (scroll_runCleanup_clears w Hw) as (Hlive & _ & Hm).
    apply scroll_runEffect_tidy; [congruence | done].
  - unfold Tidy in Hw. rewrite Heff in Hw. destruct Hw. congruence.
Qed.

Lemma scroll_mount_tidy (p : Props) (d : Dom.Document) : Tidy (mount p d).
Proof.
  unfold Tidy, mount. cbn. split; [done |]. eexists. reflexivity.
Qed.

Lemma scroll_unmount_tidy (w : World) : Tidy w -> Tidy (unmount w).
Proof.
  intros Hw. destruct (scroll_runCleanup_clears w Hw) as (Hlive & Heff & _).
  unfold Tidy, unmount. cbn. by rewrite Heff.
Qed.

Lemma scroll_unmount_no_timers (w : World) :
  Tidy w -> Host.live (timers (unmount w)) = ∅.
Proof. intros Hw. by destruct (scroll_runCleanup_clears w Hw) as (Hlive & _). Qed.

Lemma scroll_fire_no_timers (handle : nat) (w : World) :
  Host.live (timers w) = ∅ -> fire handle w = w.
Proof. intros Hlive. unfold fire. by rewrite Hlive, lookup_empty. Qed.

Lemma scroll_fire_tidy (handle : nat) (w : World) :
  Tidy w -> Tidy (fire handle w).
Proof.
  intros Hw. unfold fire.
  destruct (Host.live (timers w) !! handle) as [[cb delay] |] eqn:Hcb; [| done].
  assert (Hmounted : mounted w = true).
  { unfold Tidy in Hw. destruct (effect w) as [[dp interval] |].
    - by destruct Hw.
    - destruct Hw as [_ Hlive]. by rewrite Hlive, lookup_empty in Hcb. }
  rewrite Hmounted. apply scroll_commit_tidy; [| done].
  unfold Tidy in *. cbn.
  destruct (effect w) as [[dp interval] |]; [tauto | destruct Hw; congruence].
Qed.

Lemma scroll_run_tidy (es : list Event) (w : World) :
  Tidy w -> Tidy (run es w).
Proof.
  revert w. induction es as [| e es IH]; intros w Hw; [done |].
  unfold run in *. cbn [fold_left]. apply IH.
  destruct e; [by apply scroll_fire_tidy | by apply scroll_unmount_tidy].
Qed.

Lemma scroll_run_fires_no_timers (handles : list nat) (w : World) :
  Host.live (timers w) = ∅ -> run (Fire <$> handles) w = w.
Proof.
  intros Hlive. induction handles as [| h hs IH]; [done |].
  unfold run in *. cbn [fmap list_fmap fold_left step].
  by rewrite scroll_fire_no_timers.
Qed.

End ScrollTeardown.

Section ScrollBehaviour.
Import ScrollingAscii.

(** C3. The direction is one of two values, called forward and reverse in
    the documentation; forward is the default.  The layer's animation
    names the keyframes of the direction given: the name is
    [scroll-] followed by the direction, and the style sheet that the
    component registers defines the keyframes of that name, with which
    the layer travels in that direction. *)
Theorem direction_selects_matching_profile
    (p : Props) (sd : SpecDirection) (i : JS.num) :
  direction p = Some (ofSpec sd) \/ (direction p = None /\ sd = forward) ->
  (forall d : Direction, exists sd' : SpecDirection, d = ofSpec sd') /\
  direction' p = ofSpec sd /\
  exists a : string,
    layerAnimation (render p i) = Some a /\
    firstWord a = "scroll-" +:+ directionString (ofSpec sd) /\
    String.prefix ("@keyframes " +:+ firstWord a +:+ " {")
                  (keyframesBlock (ofSpec sd)) = true /\
    occursIn (keyframesBlock (ofSpec sd)) keyframesText = true /\
    Dom.text styleSheet = Some keyframesText.
Proof.
  intros Hdir. split; [| split].
  - intros [|]; [by exists reverse | by exists forward].
  - unfold direction'. destruct Hdir as [-> | [-> ->]]; done.
  - assert (Hd : direction' p = ofSpec sd)
      by (unfold direction'; destruct Hdir as [-> | [-> ->]]; done).
    exists (animation p). split; [done |].
    unfold animation. rewrite Hd. by destruct sd.
Qed.

Lemma direction_selects_matching_profile_witness :
  (forall d : Direction, exists sd' : SpecDirection, d = ofSpec sd') /\
  direction' scenarioProps = ofSpec forward /\
  exists a : string,
    layerAnimation (render scenarioProps (JS.Int 0)) = Some a /\
    firstWord a = "scroll-" +:+ directionString (ofSpec forward) /\
    String.prefix ("@keyframes " +:+ firstWord a +:+ " {")
                  (keyframesBlock (ofSpec forward)) = true /\
    occursIn (keyframesBlock (ofSpec forward)) keyframesText = true /\
    Dom.text styleSheet = Some keyframesText.
Proof.
  apply (direction_selects_matching_profile scenarioProps forward (JS.Int 0)).
  left. reflexivity.
Defined.

(** C4. Mounting one or more instances, whatever their props and order, on
    a page that does not use the identifier yet leaves exactly one element
    with the identifier, the style sheet with the keyframes.  The
    registration looks the fixed identifier up and does nothing when an
    element with it exists, so later mounts change nothing. *)
Theorem keyframes_registered_once (d : Dom.Document) (ps : list Props) :
  ps ≠ [] ->
  Dom.getElementById styleId d = None ->
  Dom.countInDocument styleId (mountAll ps d) = 1%nat /\
  Dom.getElementById styleId (mountAll ps d) = Some styleSheet /\
  (forall more : list Props, mountAll more (mountAll ps d) = mountAll ps d) /\
  (forall (page : Dom.Document) (e : Dom.Element) (p : Props),
      Dom.getElementById styleId page = Some e ->
      injectKeyframes page = page /\ document (mount p page) = page).
Proof.
  intros Hps Hnone. destruct ps as [| p ps]; [done |].
  rewrite (mountAll_absent p ps d Hnone).
  destruct (injectKeyframes_absent d Hnone) as [Hcount Hfound].
  repeat split; try done.
  - intros more. by eapply mountAll_present.
  - by eapply injectKeyframes_present.
  - rewrite document_mount. by eapply injectKeyframes_present.
Qed.

Lemma keyframes_registered_once_witness :
  Dom.countInDocument styleId
    (mountAll [scenarioProps; noFramesProps; scenarioProps] emptyDocument)
  = 1%nat /\
  Dom.getElementById styleId
    (mountAll [scenarioProps; noFramesProps; scenarioProps] emptyDocument)
  = Some styleSheet /\
  (forall more : list Props,
      mountAll more
        (mountAll [scenarioProps; noFramesProps; scenarioProps] emptyDocument)
      = mountAll [scenarioProps; noFramesProps; scenarioProps] emptyDocument) /\
  (forall (page : Dom.Document) (e : Dom.Element) (p : Props),
      Dom.getElementById styleId page = Some e ->
      injectKeyframes page = page /\ document (mount p page) = page).
Proof.
  apply (keyframes_registered_once emptyDocument
           [scenarioProps; noFramesProps; scenarioProps]).
  - discriminate.
  - reflexivity.
Defined.

(** C7. With a non-empty list of frames, each tick turns the frame index
    [i] into [(i + 1) mod frames.length]; nothing else changes: the props,
    and with them the one list of frames, stay, and so does the interval. *)
Theorem scroll_tick_is_modulo_increment
    (p : Props) (d : Dom.Document) (n : nat) :
  frames p ≠ [] ->
  let w := ticks n (mount p d) in
  exists i : Z,
    frameIndex w = JS.Int i /\
    0 <= i < Z.of_nat (length (frames p)) /\
    frameIndex (tick w) = JS.Int ((i + 1) mod Z.of_nat (length (frames p))) /\
    props (tick w) = props w /\
    effect (tick w) = effect w.
Proof.
  intros Hne w. subst w.
  assert (Hpos : (0 < length (frames p))%nat)
    by (destruct (frames p); [done | cbn; lia]).
  destruct (scroll_ticks_running p n _ _ (scroll_mount_running p d)) as [Hw _].
  destruct (scroll_tick_running p _ _ Hw) as (Hw' & _ & Heff & _).
  exists (Z.of_nat (n mod length (frames p))).
  split; [by apply scroll_ticks_index |].
  split; [pose proof (Nat.mod_upper_bound n (length (frames p))); lia |].
  split; [| split; [| done]].
  - rewrite <- ticks_succ, scroll_ticks_index by done.
    f_equal. rewrite !Nat2Z.inj_mod, Z.add_mod_idemp_l by lia.
    f_equal. lia.
  - by rewrite (running_props _ _ _ Hw'), (running_props _ _ _ Hw).
Qed.

Lemma scroll_tick_is_modulo_increment_witness :
  let w := ticks 3 (mount scenarioProps emptyDocument) in
  exists i : Z,
    frameIndex w = JS.Int i /\
    0 <= i < Z.of_nat (length (frames scenarioProps)) /\
    frameIndex (tick w)
    = JS.Int ((i + 1) mod Z.of_nat (length (frames scenarioProps))) /\
    props (tick w) = props w /\
    effect (tick w) = effect w.
Proof.
  apply (scroll_tick_is_modulo_increment scenarioProps emptyDocument 3).
  discriminate.
Defined.

(** C10. With an empty list of frames, every tick computes
    [(frameIndex + 1) % 0], which is [NaN], as the new frame index;
    [frames[frameIndex]] is [undefined] before and after it, and the
    render shows nothing.  Neither the tick nor the render can throw:
    they are total functions, built from operations that never do. *)
Theorem empty_frames_tick_to_NaN (p : Props) (d : Dom.Document) (n : nat) :
  frames p = [] ->
  let w := ticks n (mount p d) in
  JS.len (frames p) = JS.Int 0 /\
  JS.rem (JS.add (frameIndex w) (JS.Int 1)) (JS.Int 0) = JS.NaN /\
  frameIndex (tick w) = JS.NaN /\
  JS.index (frames p) (frameIndex w) = None /\
  JS.index (frames p) (frameIndex (tick w)) = None /\
  view w = None /\
  view (tick w) = None.
Proof.
  intros Hnone w. subst w.
  destruct (scroll_ticks_running p n _ _ (scroll_mount_running p d)) as [Hw _].
  destruct (scroll_tick_running p _ _ Hw) as (Hw' & _ & _ & _).
  assert (Hnan : frameIndex (tick (ticks n (mount p d))) = JS.NaN)
    by (rewrite <- ticks_succ; by apply scroll_ticks_NaN).
  assert (Hundef : forall i, JS.index (frames p) i = None).
  { intros [z |]; [| done]. rewrite Hnone. unfold JS.index.
    by destruct (z <? 0). }
  unfold view, render, displayed. cbn [Dom.children Dom.text].
  rewrite (running_props _ _ _ Hw'), (running_props _ _ _ Hw), !Hundef.
  repeat split; try done.
  - by rewrite Hnone.
  - by destruct (frameIndex (ticks n (mount p d))).
Qed.

Lemma empty_frames_tick_to_NaN_witness :
  let w := ticks 2 (mount noFramesProps emptyDocument) in
  JS.len (frames noFramesProps) = JS.Int 0 /\
  JS.rem (JS.add (frameIndex w) (JS.Int 1)) (JS.Int 0) = JS.NaN /\
  frameIndex (tick w) = JS.NaN /\
  JS.index (frames noFramesProps) (frameIndex w) = None /\
  JS.index (frames noFramesProps) (frameIndex (tick w)) = None /\
  view w = None /\
  view (tick w) = None.
Proof.
  apply (empty_frames_tick_to_NaN noFramesProps emptyDocument 2).
  reflexivity.
Defined.

End ScrollBehaviour.

(** ** Teardown of both components *)

(** C6. Unmounting a component, at any point of its life, cancels its
    interval: no interval is live afterwards, and whatever handles the host
    fires from then on, the component's world stays as the unmount left it,
    state and count of callback calls included.  This holds for
    AsciiBackground, which with one frame set or more mounts and runs
    without throwing, and for ScrollingAscii. *)
Theorem unmount_cancels_interval
    (pc : AsciiBackground.Props) (ec : list AsciiBackground.Event)
    (ps : ScrollingAscii.Props) (d : Dom.Document)
    (es : list ScrollingAscii.Event) :
  AsciiBackground.frameSets pc ≠ [] ->
  (exists wc : AsciiBackground.World,
      JS.bind (AsciiBackground.mount pc) (AsciiBackground.run ec) = JS.Ok wc /\
      let u := AsciiBackground.unmount wc in
      Host.live (AsciiBackground.timers u) = ∅ /\
      forall handles : list nat,
        AsciiBackground.run (AsciiBackground.Fire <$> handles) u = JS.Ok u) /\
  (let u := ScrollingAscii.unmount
              (ScrollingAscii.run es (ScrollingAscii.mount ps d)) in
   Host.live (ScrollingAscii.timers u) = ∅ /\
   forall handles : list nat,
     ScrollingAscii.run (ScrollingAscii.Fire <$> handles) u = u).
Proof.
  intros Hne. split.
  - destruct (mount_alive pc Hne) as (w0 & Hmount & Hw0).
    destruct (run_alive pc ec w0 Hw0) as (wc & Hrun & Hwc).
    exists wc. rewrite Hmount. cbn [JS.bind]. split; [done |].
    pose proof (unmount_no_timers pc wc Hwc) as Hlive.
    split; [done |]. intros handles. by apply run_fires_no_timers.
  - pose proof (scroll_run_tidy es _ (scroll_mount_tidy ps d)) as Htidy.
    pose proof (scroll_unmount_no_timers _ Htidy) as Hlive.
    split; [done |]. intros handles. by apply scroll_run_fires_no_timers.
Qed.

Lemma unmount_cancels_interval_witness :
  (exists wc : AsciiBackground.World,
      JS.bind (AsciiBackground.mount AsciiBackground.scenarioProps)
        (AsciiBackground.run
           [AsciiBackground.Fire 1; AsciiBackground.Fire 1;
            AsciiBackground.Fire 2]) = JS.Ok wc /\
      let u := AsciiBackground.unmount wc in
      Host.live (AsciiBackground.timers u) = ∅ /\
      forall handles : list nat,
        AsciiBackground.run (AsciiBackground.Fire <$> handles) u = JS.Ok u) /\
  (let u := ScrollingAscii.unmount
              (ScrollingAscii.run [ScrollingAscii.Fire 1; ScrollingAscii.Fire 1]
                 (ScrollingAscii.mount ScrollingAscii.scenarioProps
                    ScrollingAscii.emptyDocument)) in
   Host.live (ScrollingAscii.timers u) = ∅ /\
   forall handles : list nat,
     ScrollingAscii.run (ScrollingAscii.Fire <$> handles) u = u).
Proof.
  apply (unmount_cancels_interval AsciiBackground.scenarioProps
           [AsciiBackground.Fire 1; AsciiBackground.Fire 1;
            AsciiBackground.Fire 2]).
  discriminate.
Defined.

(** * Further properties *)

(** ** AsciiBackground with frame sets that may be empty *)

Section CyclerSteady.
Import AsciiBackground.

Variable p : Props.
Hypothesis nonEmpty : frameSets p ≠ [].

Local Abbreviation fs := (frameSets p).

Lemma deps_eq_length (a b : list string) :
  deps p a = deps p b <-> length a = length b.
Proof.
  unfold deps, JS.len. split; [| by intros ->].
  intros [= H]. lia.
Qed.

Lemma indexStep_lookup (i : nat * nat) :
  is_Some (fs !! i.1) -> is_Some (fs !! (indexStep fs i).1).
Proof.
  intros [active Hs]. unfold indexStep. rewrite Hs.
  case_bool_decide; cbn [fst]; [| by eexists].
  apply lookup_lt_is_Some_2, Nat.mod_upper_bound.
  destruct fs; [done | cbn; lia].
Qed.

Lemma intervalCallback_steady (captured active : list string) (i : nat * nat) :
  fs !! i.1 = Some active ->
  length captured = length active ->
  intervalCallback {| cb_currentFrameSet := captured; cb_frameSets := fs |}
    (stateOf i)
  = stateOf (indexStep fs i).
Proof.
  intros Hs Hlen.
  assert (Hpos : (0 < length fs)%nat) by (destruct fs; [done | cbn; lia]).
  unfold intervalCallback, frameUpdater, setUpdater, indexStep, stateOf, JS.len.
  cbn [frameIndex setIndex cb_currentFrameSet cb_frameSets].
  rewrite ge_succ_of_nat, Hlen, Hs.
  case_bool_decide; cbn [fst snd].
  - rewrite rem_succ_of_nat by lia. reflexivity.
  - cbn [JS.add]. do 2 f_equal. lia.
Qed.

Lemma mount_steady :
  exists w, mount p = JS.Ok w /\ Steady p w (0%nat, 0%nat) /\ dispatches w = 0%nat.
Proof.
  assert (Hpos : (0 < length fs)%nat) by (destruct fs; [done | cbn; lia]).
  destruct (lookup_lt_is_Some_2 fs 0 Hpos) as [first Hfirst].
  unfold mount, commit, render, currentFrameSet. cbn [props state effect].
  change (setIndex initialState) with (JS.Int (Z.of_nat 0)).
  rewrite index_of_nat, Hfirst.
  eexists. split; [reflexivity |]. split; [| reflexivity].
  split; cbn; try done.
  - exists first. cbn. split; [done | lia].
  - exists first, 1%nat. split; [| split; [done | split] ].
    + intros active. cbn. congruence.
    + by rewrite insert_empty.
    + lia.
Qed.

(** A tick of a steady component: the indices step, the callback is called
    once, and the interval is kept when the set now active is as long as
    the one before, and replaced by a new one otherwise. *)
Lemma tick_steady (w : World) (i : nat * nat) :
  Steady p w i ->
  exists w',
    tick w = JS.Ok w' /\ Steady p w' (indexStep fs i) /\
    dispatches w' = S (dispatches w) /\
    forall a a',
      fs !! i.1 = Some a -> fs !! (indexStep fs i).1 = Some a' ->
      (length a' = length a -> effect w' = effect w /\ timers w' = timers w) /\
      (length a' ≠ length a ->
       intervalOf w' = Some (Host.fresh (timers w)) /\
       Host.fresh (timers w') = S (Host.fresh (timers w))).
Proof.
  intros [Hprops Hmounted Hstate (active & Hs & Hf)
            (captured & interval & Hlen & Heff & Hlive & Hfresh)].
  destruct (indexStep_lookup i) as [active' Hs']; [by eexists |].
  specialize (Hlen _ Hs).
  assert (Hrange' : ((indexStep fs i).2 < Nat.max 1 (length active'))%nat).
  { revert Hs'. unfold indexStep. rewrite Hs.
    case_bool_decide; cbn [fst snd]; intros Hs'; [lia |].
    assert (active' = active) as -> by congruence. lia. }
  assert (Hpos : (0 < length fs)%nat) by (destruct fs; [done | cbn; lia]).
  unfold tick, fire. rewrite Heff, Hlive, lookup_singleton_eq, Hmounted, Hstate.
  rewrite (intervalCallback_steady captured active i Hs Hlen).
  unfold commit, render, currentFrameSet.
  cbn [props state effect]. rewrite ?Hprops.
  change (setIndex (stateOf (indexStep fs i)))
    with (JS.Int (Z.of_nat (indexStep fs i).1)).
  rewrite index_of_nat, Hs'.
  case_decide as Hdeps.
  - apply deps_eq_length in Hdeps.
    eexists. split; [reflexivity |]. split; [| split; [reflexivity |]].
    + split; cbn; try done.
      * by exists active'.
      * exists captured, interval. split; [| done].
        intros a Ha. congruence.
    + intros a a' Ha Ha'. cbn.
      assert (a = active) as -> by congruence.
      assert (a' = active') as -> by congruence.
      split; [done | intros Hne; lia].
  - rewrite deps_eq_length in Hdeps.
    eexists. split; [reflexivity |]. split; [| split; [reflexivity |]].
    + split; cbn; try done.
      * by exists active'.
      * exists active'. eexists. split; [| split; [reflexivity | split] ].
        -- intros a Ha. congruence.
        -- cbn. by rewrite Hlive, delete_singleton_eq, insert_empty.
        -- cbn. lia.
    + intros a a' Ha Ha'.
      assert (a = active) as -> by congruence.
      assert (a' = active') as -> by congruence.
      split; [intros Heq; lia | done].
Qed.

Lemma ticks_steady (n : nat) (w : World) (i : nat * nat) :
  Steady p w i ->
  exists w', ticks n w = JS.Ok w' /\ Steady p w' (indexSteps fs n i)
             /\ dispatches w' = (n + dispatches w)%nat.
Proof.
  revert w i. induction n as [| n IH]; intros w i Hw.
  - exists w. by cbn.
  - destruct (tick_steady w i Hw) as (w1 & Htick & Hw1 & Hd1 & _).
    destruct (IH w1 _ Hw1) as (w2 & Hticks & Hw2 & Hd2).
    exists w2. cbn [ticks indexSteps]. rewrite Htick. cbn [JS.bind].
    split; [done |]. split; [done | lia].
Qed.

Lemma mounted_ticks_steady (n : nat) :
  exists w, JS.bind (mount p) (ticks n) = JS.Ok w
            /\ Steady p w (indexSteps fs n (0%nat, 0%nat))
            /\ dispatches w = n.
Proof.
  destruct mount_steady as (w0 & Hmount & Hw0 & Hd0).
  destruct (ticks_steady n w0 _ Hw0) as (w & Hticks & Hw & Hd).
  exists w. rewrite Hmount. cbn [JS.bind]. split; [done |]. split; [done | lia].
Qed.

End CyclerSteady.

Section CyclerEdges.
Import AsciiBackground.

(** X1. The first render throws exactly when there is no frame set:
    [frameSets[0]] is then [undefined] and indexing it is a TypeError; with
    one frame set or more, empty or not, the component mounts. *)
Theorem mount_throws_iff_no_sets (p : Props) :
  mount p = JS.TypeError <-> frameSets p = [].
Proof.
  split; [| apply mount_no_sets_throws].
  intros Hthrow. destruct (frameSets p) as [| s rest] eqn:Hfs; [done |].
  destruct (mount_alive p) as (w & Hmount & _); [by rewrite Hfs | congruence].
Qed.

(** X2. With one frame set or more, whatever the sets hold, nothing the
    host does makes the component throw: after any sequence of interval
    firings, of live handles or not, and unmounts, the set index is an
    integer within the frame sets and the body evaluates to a tree. *)
Theorem no_event_makes_render_throw (p : Props) (es : list Event) :
  frameSets p ≠ [] ->
  exists (w : World) (si : Z) (tree : Dom.Element),
    JS.bind (mount p) (run es) = JS.Ok w /\
    setIndex (state w) = JS.Int si /\
    0 <= si < Z.of_nat (length (frameSets p)) /\
    render p (state w) = JS.Ok tree.
Proof.
  intros Hne.
  destruct (mount_alive p Hne) as (w0 & Hmount & Hw0).
  destruct (run_alive p es w0 Hw0) as (w & Hrun & (_ & (s & f & Hstate & Hs) & _)).
  destruct (lookup_lt_is_Some_2 _ _ Hs) as [active Hactive].
  exists w, (Z.of_nat s). eexists.
  rewrite Hmount. cbn [JS.bind]. split; [done |].
  rewrite Hstate. cbn [setIndex]. split; [done |]. split; [lia |].
  unfold render, currentFrameSet. cbn [setIndex].
  by rewrite index_of_nat, Hactive.
Qed.

Lemma no_event_makes_render_throw_witness :
  exists (w : World) (si : Z) (tree : Dom.Element),
    JS.bind (mount gapProps) (run [Fire 1; Fire 7; Fire 2; Unmount; Fire 2])
    = JS.Ok w /\
    setIndex (state w) = JS.Int si /\
    0 <= si < Z.of_nat (length (frameSets gapProps)) /\
    render gapProps (state w) = JS.Ok tree.
Proof.
  apply (no_event_makes_render_throw gapProps
           [Fire 1; Fire 7; Fire 2; Unmount; Fire 2]).
  discriminate.
Defined.




(** X4. While the component is mounted exactly one interval is live, with
    the delay [frameRate] (200 by default) and a callback that captured a
    frame set as long as the active one, and every tick calls the callback
    once.  A tick keeps that interval when the set active after it is as
    long as the set active before, and otherwise clears it and sets a new
    one, with a new handle. *)
Theorem interval_restarts_exactly_on_length_change (p : Props) (n : nat) :
  frameSets p ≠ [] ->
  exists (w w' : World) (a a' : list string) (h h' : nat) (cb : Callback),
    JS.bind (mount p) (ticks n) = JS.Ok w /\
    dispatches w = n /\
    tick w = JS.Ok w' /\
    currentFrameSet p (state w) = Some a /\
    currentFrameSet p (state w') = Some a' /\
    intervalOf w = Some h /\
    intervalOf w' = Some h' /\
    (h' = h <-> length a' = length a) /\
    Host.live (timers w') = {[ h' := (cb, frameRate' p) ]} /\
    length (cb_currentFrameSet cb) = length a'.
Proof.
  intros Hne.
  destruct (mounted_ticks_steady p Hne n) as (w & Hrun & Hw & Hd).
  destruct (tick_steady p Hne w _ Hw) as (w' & Htick & Hw' & _ & Hrestart).
  set (i := indexSteps (frameSets p) n (0%nat, 0%nat)) in *.
  destruct (steady_range _ _ _ Hw) as (a & Hs & _).
  destruct (steady_range _ _ _ Hw') as (a' & Hs' & _).
  destruct (steady_effect _ _ _ Hw) as (c & h & _ & Heff & _ & Hfresh).
  destruct (steady_effect _ _ _ Hw') as (c' & h' & Hlen' & Heff' & Hlive' & _).
  destruct (Hrestart a a' Hs Hs') as [Hkeep Hnew].
  exists w, w', a, a', h, h'. eexists.
  unfold currentFrameSet, intervalOf.
  rewrite (steady_state _ _ _ Hw), (steady_state _ _ _ Hw'), Heff, Heff'.
  unfold stateOf. cbn [setIndex]. rewrite !index_of_nat.
  repeat split; try done.
  - intros ->. destruct (decide (length a' = length a)) as [| Hne']; [done |].
    destruct (Hnew Hne') as [Hint _]. unfold intervalOf in Hint.
    rewrite Heff' in Hint. cbn in Hint. injection Hint as Hint. lia.
  - intros Heq. destruct (Hkeep Heq) as [Hsame _]. congruence.
  - cbn. by apply Hlen'.
Qed.

Lemma interval_restarts_exactly_on_length_change_witness :
  exists (w w' : World) (a a' : list string) (h h' : nat) (cb : Callback),
    JS.bind (mount scenarioProps) (ticks 1) = JS.Ok w /\
    dispatches w = 1%nat /\
    tick w = JS.Ok w' /\
    currentFrameSet scenarioProps (state w) = Some a /\
    currentFrameSet scenarioProps (state w') = Some a' /\
    intervalOf w = Some h /\
    intervalOf w' = Some h' /\
    (h' = h <-> length a' = length a) /\
    Host.live (timers w') = {[ h' := (cb, frameRate' scenarioProps) ]} /\
    length (cb_currentFrameSet cb) = length a'.
Proof.
  apply (interval_restarts_exactly_on_length_change scenarioProps 1).
  discriminate.
Defined.

End CyclerEdges.

Section CyclerPlayback.
Import AsciiBackground.

(** A position in the concatenation of the sets is a frame of one of the
    sets, after all the frames of the sets before it. *)
Lemma concat_position (sets : list (list string)) (k : nat) :
  (k < sum_list_with length sets)%nat ->
  exists (j f : nat) (active : list string),
    sets !! j = Some active /\ (f < length active)%nat /\
    k = (sum_list_with length (take j sets) + f)%nat /\
    concat sets !! k = active !! f.
Proof.
  revert k. induction sets as [| s rest IH]; intros k Hk; [cbn in Hk; lia |].
  cbn [sum_list_with] in Hk.
  destruct (decide (k < length s)%nat) as [Hin | Hout].
  - exists 0%nat, k, s. cbn. repeat split; try done.
    by rewrite lookup_app_l.
  - destruct (IH (k - length s)%nat) as (j & f & active & Hj & Hf & Hk' & Hc);
      [lia |].
    exists (S j), f, active. cbn [take sum_list_with concat].
    repeat split; try done; [lia |].
    rewrite lookup_app_r by lia. done.
Qed.

Variable p : Props.
Hypothesis nonEmpty : frameSets p ≠ [].
Hypothesis setsNonEmpty : Forall (fun s => s ≠ []) (frameSets p).

Local Abbreviation fs := (frameSets p).
Local Abbreviation total := (sum_list_with length (frameSets p)).

Lemma total_pos : (0 < total)%nat.
Proof.
  destruct fs as [| s rest] eqn:Hfs; [done |].
  apply Forall_cons in setsNonEmpty as [Hs _].
  cbn. destruct s; [done | cbn; lia].
Qed.

(** Whole cycles do not count. *)
Lemma indexSteps_cycles (k : nat) :
  indexSteps fs (k * total) (0%nat, 0%nat) = (0%nat, 0%nat).
Proof.
  induction k as [| k IH]; [done |].
  cbn [Nat.mul]. rewrite indexSteps_add.
  by rewrite (indexSteps_cycle p nonEmpty setsNonEmpty).
Qed.

Lemma indexSteps_mod (n : nat) :
  indexSteps fs n (0%nat, 0%nat) = indexSteps fs (n mod total) (0%nat, 0%nat).
Proof.
  rewrite (Nat.div_mod_eq n total) at 1.
  rewrite (Nat.mul_comm total), indexSteps_add. by rewrite indexSteps_cycles.
Qed.

(** Within the first cycle the indices are those of the position in the
    concatenation. *)
Lemma indexSteps_position (k : nat) :
  (k < total)%nat ->
  exists (j f : nat) (active : list string),
    fs !! j = Some active /\ (f < length active)%nat /\
    indexSteps fs k (0%nat, 0%nat) = (j, f) /\
    concat fs !! k = active !! f.
Proof.
  intros Hk.
  destruct (concat_position fs k Hk) as (j & f & active & Hj & Hf & -> & Hc).
  exists j, f, active. repeat split; try done.
  pose proof (lookup_lt_Some _ _ _ Hj) as Hlt.
  rewrite indexSteps_add.
  rewrite (indexSteps_prefix p nonEmpty setsNonEmpty j) by lia.
  rewrite Nat.mod_small by lia.
  by rewrite (indexSteps_within p f j 0 active Hj) by lia.
Qed.

End CyclerPlayback.

Section CyclerPlaybackTheorems.
Import AsciiBackground.

(** X5. With non-empty frame sets the frames on screen, tick after tick,
    are the frames of all the sets in order, over and over: after [n] ticks
    the component shows the frame at position [n mod total] of the
    concatenation of the sets, where [total] is the number of frames of all
    the sets.  In particular there always is a frame on screen. *)
Theorem frames_shown_are_the_sets_in_order (p : Props) (n : nat) :
  frameSets p ≠ [] ->
  Forall (fun s => s ≠ []) (frameSets p) ->
  exists (w : World) (frame : string),
    JS.bind (mount p) (ticks n) = JS.Ok w /\
    view w = Some frame /\
    concat (frameSets p) !! (n mod sum_list_with length (frameSets p))%nat
    = Some frame.
Proof.
  intros Hne Hsets.
  destruct (mounted_ticks_settled p Hne Hsets n) as (w & Hrun & Hw & _).
  rewrite (indexSteps_mod p Hne Hsets n) in Hw.
  destruct (indexSteps_position p Hne Hsets
              (n mod sum_list_with length (frameSets p)))
    as (j & f & active & Hj & Hf & Hsteps & Hc).
  { apply Nat.mod_upper_bound. pose proof (total_pos p Hne Hsets). lia. }
  destruct (lookup_lt_is_Some_2 active f Hf) as [frame Hframe].
  exists w, frame. split; [done |].
  rewrite (view_settled p w _ Hw), Hsteps, Hc. cbn [fst snd].
  by rewrite Hj.
Qed.

Lemma frames_shown_are_the_sets_in_order_witness :
  exists (w : World) (frame : string),
    JS.bind (mount scenarioProps) (ticks 13) = JS.Ok w /\
    view w = Some frame /\
    concat (frameSets scenarioProps)
      !! (13 mod sum_list_with length (frameSets scenarioProps))%nat
    = Some frame.
Proof.
  apply (frames_shown_are_the_sets_in_order scenarioProps 13).
  - discriminate.
  - repeat constructor; discriminate.
Defined.

(** X6. With non-empty frame sets the animation is periodic: adding any
    number of whole cycles of [total] ticks, [total] being the number of
    frames of all the sets, gives the same indices as without them. *)
Theorem state_repeats_every_cycle (p : Props) (n k : nat) :
  frameSets p ≠ [] ->
  Forall (fun s => s ≠ []) (frameSets p) ->
  exists w1 w2 : World,
    JS.bind (mount p) (ticks n) = JS.Ok w1 /\
    JS.bind (mount p) (ticks (n + k * sum_list_with length (frameSets p)))
    = JS.Ok w2 /\
    state w2 = state w1.
Proof.
  intros Hne Hsets.
  destruct (mounted_ticks_settled p Hne Hsets n) as (w1 & Hrun1 & Hw1 & _).
  destruct (mounted_ticks_settled p Hne Hsets
              (n + k * sum_list_with length (frameSets p)))
    as (w2 & Hrun2 & Hw2 & _).
  exists w1, w2. split; [done |]. split; [done |].
  rewrite (settled_state _ _ _ Hw1), (settled_state _ _ _ Hw2).
  rewrite Nat.add_comm, indexSteps_add.
  by rewrite (indexSteps_cycles p Hne Hsets).
Qed.

Lemma state_repeats_every_cycle_witness :
  exists w1 w2 : World,
    JS.bind (mount scenarioProps) (ticks 3) = JS.Ok w1 /\
    JS.bind (mount scenarioProps)
      (ticks (3 + 2 * sum_list_with length (frameSets scenarioProps)))
    = JS.Ok w2 /\
    state w2 = state w1.
Proof.
  apply (state_repeats_every_cycle scenarioProps 3 2).
  - discriminate.
  - repeat constructor; discriminate.
Defined.

End CyclerPlaybackTheorems.

(** ** The container style of AsciiBackground *)

Section ContainerStyle.
Import AsciiBackground.

Lemma get_assign (k k' v : string) (o : list (string * string)) :
  JS.get k (JS.assign k' v o) = if String.eqb k k' then Some v else JS.get k o.
Proof.
  induction o as [| [k0 v0] rest IH]; cbn [JS.assign JS.get].
  - by destruct (String.eqb_spec k k').
  - destruct (String.eqb_spec k' k0) as [-> | Hne]; cbn [JS.get].
    + by destruct (String.eqb_spec k k0).
    + destruct (String.eqb_spec k k0) as [-> | Hne'].
      * destruct (String.eqb_spec k0 k'); [congruence | done].
      * apply IH.
Qed.

Lemma get_None_not_key (k : string) (o : list (string * string)) :
  k ∉ o.*1 -> JS.get k o = None.
Proof.
  induction o as [| [k0 v0] rest IH]; [done |].
  cbn [fmap list_fmap fst JS.get]. intros Hnot.
  apply not_elem_of_cons in Hnot as [Hne Hrest].
  destruct (String.eqb_spec k k0); [done | by apply IH].
Qed.

(** Reading a property of [{...base, ...over}]: the one of [over] if it
    has it, the one of [base] otherwise. *)
Lemma get_spread (k : string) (base over : list (string * string)) :
  NoDup over.*1 ->
  JS.get k (JS.spread base over)
  = match JS.get k over with
    | Some v => Some v
    | None => JS.get k base
    end.
Proof.
  unfold JS.spread. revert base.
  induction over as [| [k0 v0] rest IH]; intros base Hdup; [done |].
  apply NoDup_cons in Hdup as [Hfresh Hdup].
  cbn [fold_left fst snd JS.get]. rewrite IH by done.
  rewrite get_assign.
  destruct (String.eqb_spec k k0) as [-> | Hne]; [| done].
  by rewrite (get_None_not_key k0 rest Hfresh).
Qed.

(** X7. The container of the rendered tree carries the base style with the
    [style] prop spread over it: a property that [style] gives replaces the
    base value, every property that [style] does not give keeps its base
    value, and without a [style] prop the container has the base style
    itself. *)
Theorem style_prop_overrides_container_style (p : Props) (k : string) :
  NoDup (style' p).*1 ->
  (forall (s : State) (tree : Dom.Element),
      render p s = JS.Ok tree -> Dom.style tree = containerStyle p) /\
  JS.get k (containerStyle p)
  = match JS.get k (style' p) with
    | Some v => Some v
    | None => JS.get k containerBase
    end /\
  (style p = None -> containerStyle p = containerBase).
Proof.
  intros Hdup. split; [| split].
  - intros s tree. unfold render.
    destruct (currentFrameSet p s) as [cfs |]; [| done]. by intros [= <-].
  - by apply (get_spread k containerBase (style' p)).
  - intros Hnone. unfold containerStyle, style'. by rewrite Hnone.
Qed.

Lemma style_prop_overrides_container_style_witness :
  (forall (s : State) (tree : Dom.Element),
      render styledProps s = JS.Ok tree ->
      Dom.style tree = containerStyle styledProps) /\
  JS.get "top" (containerStyle styledProps)
  = match JS.get "top" (style' styledProps) with
    | Some v => Some v
    | None => JS.get "top" containerBase
    end /\
  (style styledProps = None -> containerStyle styledProps = containerBase).
Proof.
  apply (style_prop_overrides_container_style styledProps "top").
  apply (bool_decide_unpack _). vm_compute. reflexivity.
Defined.

End ContainerStyle.

(** ** ScrollingAscii over its whole life *)

Section ScrollLife.
Import ScrollingAscii.

Lemma scroll_view_running (p : Props) (page : Dom.Document) (w : World) :
  Running p page w -> view w = JS.index (frames p) (frameIndex w).
Proof. intros Hw. unfold view. by rewrite (running_props _ _ _ Hw). Qed.

(** X8. With a non-empty list of frames the frames on screen, tick after
    tick, are the frames of the list in order, over and over: after [n]
    ticks the frame index is [n mod frames.length] and the frame at that
    index is shown. *)
Theorem scroll_shows_frames_in_turn (p : Props) (d : Dom.Document) (n : nat) :
  frames p ≠ [] ->
  exists frame : string,
    frameIndex (ticks n (mount p d))
    = JS.Int (Z.of_nat (n mod length (frames p))) /\
    frames p !! (n mod length (frames p))%nat = Some frame /\
    view (ticks n (mount p d)) = Some frame.
Proof.
  intros Hne.
  assert (Hlt : (n mod length (frames p) < length (frames p))%nat).
  { apply Nat.mod_upper_bound. destruct (frames p); [done | cbn; lia]. }
  destruct (lookup_lt_is_Some_2 _ _ Hlt) as [frame Hframe].
  destruct (scroll_ticks_running p n _ _ (scroll_mount_running p d)) as [Hw _].
  exists frame. split; [by apply scroll_ticks_index |]. split; [done |].
  rewrite (scroll_view_running _ _ _ Hw), (scroll_ticks_index p d n Hne).
  by rewrite index_of_nat.
Qed.

Lemma scroll_shows_frames_in_turn_witness :
  exists frame : string,
    frameIndex (ticks 5 (mount scenarioProps emptyDocument))
    = JS.Int (Z.of_nat (5 mod length (frames scenarioProps))) /\
    frames scenarioProps !! (5 mod length (frames scenarioProps))%nat
    = Some frame /\
    view (ticks 5 (mount scenarioProps emptyDocument)) = Some frame.
Proof.
  apply (scroll_shows_frames_in_turn scenarioProps emptyDocument 5).
  discriminate.
Defined.

Lemma scroll_tick_timers (p : Props) (page : Dom.Document) (w : World) :
  Running p page w -> timers (tick w) = timers w.
Proof.
  intros [Hprops Hmounted Hdoc (interval & Heff & Hlive)].
  unfold tick, fire. rewrite Heff, Hlive, lookup_singleton_eq, Hmounted.
  unfold commit. cbn [effect props]. rewrite ?Heff, ?Hprops.
  by rewrite decide_True by done.
Qed.

(** X9. The interval that the mount sets is the only one the component
    ever sets: whatever the frames, no tick clears it or sets another one,
    so it stays the one live interval, with the delay [frameRate] (150 by
    default), and [n] ticks call its callback [n] times. *)
Theorem scroll_interval_is_never_restarted
    (p : Props) (d : Dom.Document) (n : nat) :
  let w := ticks n (mount p d) in
  effect w = effect (mount p d) /\
  timers w = timers (mount p d) /\
  (exists interval : nat,
      Host.live (timers w)
      = {[ interval := ({| cb_frames := frames p |}, frameRate' p) ]}) /\
  dispatches w = n.
Proof.
  induction n as [| n IH]; cbn zeta in *.
  - repeat split. exists 1%nat. cbn. by rewrite insert_empty.
  - destruct IH as (Heff & Htimers & Hlive & Hd).
    destruct (scroll_ticks_running p n _ _ (scroll_mount_running p d)) as [Hw _].
    destruct (scroll_tick_running p _ _ Hw) as (_ & _ & Heff' & Hd').
    rewrite ticks_succ, Heff', (scroll_tick_timers p _ _ Hw), Hd', Htimers.
    rewrite Htimers in Hlive. repeat split; try done. by rewrite Hd.
Qed.

Lemma document_fire (handle : nat) (w : World) :
  document (fire handle w) = document w.
Proof.
  unfold fire. destruct (Host.live (timers w) !! handle) as [[cb delay] |]; [| done].
  destruct (mounted w); [| done].
  unfold commit, runEffect, runCleanup. cbn [effect props].
  destruct (effect w) as [[old interval] |]; [| done].
  by case_decide.
Qed.

Lemma document_unmount (w : World) : document (unmount w) = document w.
Proof.
  unfold unmount, runCleanup. by destruct (effect w) as [[old interval] |].
Qed.

Lemma document_run (es : list Event) (w : World) :
  document (run es w) = document w.
Proof.
  revert w. induction es as [| e es IH]; intros w; [done |].
  unfold run in *. cbn [fold_left]. rewrite IH.
  destruct e; [apply document_fire | apply document_unmount].
Qed.

(** X10. After the mount the component never touches the document again:
    whatever intervals fire and whether it is unmounted or not, the
    document stays the one the mount left.  The keyframes effect has no
    cleanup, so an element with the identifier is still there after the
    unmount. *)
Theorem keyframes_outlive_the_component
    (p : Props) (d : Dom.Document) (es : list Event) :
  document (run es (mount p d)) = injectKeyframes d /\
  document (unmount (run es (mount p d))) = injectKeyframes d /\
  is_Some (Dom.getElementById styleId (document (unmount (run es (mount p d))))).
Proof.
  rewrite document_unmount, document_run, document_mount.
  repeat split.
  destruct (Dom.getElementById styleId d) as [e |] eqn:Hfound.
  - rewrite (injectKeyframes_present d e Hfound), Hfound. by eexists.
  - destruct (injectKeyframes_absent d Hfound) as [_ ->]. by eexists.
Qed.

End ScrollLife.

(** ** What the registration leaves alone *)

Section RegistrationFrame.
Import Dom ScrollingAscii.

Lemma findInList_app (i : string) (l k : list Element) :
  findInList i (l ++ k)
  = match findInList i l with
    | Some x => Some x
    | None => findInList i k
    end.
Proof.
  induction l as [| c l IH]; [done |].
  change (findInList i (c :: l))
    with (match findId i c with Some x => Some x | None => findInList i l end).
  cbn [app]. change (findInList i (c :: l ++ k))
    with (match findId i c with
          | Some x => Some x
          | None => findInList i (l ++ k)
          end).
  destruct (findId i c); [done | apply IH].
Qed.

Lemma findId_appendChild_other (i : string) (child parent : Element) :
  hasId i parent = false ->
  findId i child = None ->
  findId i (appendChild child parent) = findId i parent.
Proof.
  destruct parent as [t j c s x cs]. cbn [appendChild]. intros Hid Hchild.
  rewrite !(findId_unfold i (Elem _ _ _ _ _ _)). cbn [children].
  change (hasId i (Elem t j c s x (cs ++ [child])))
    with (hasId i (Elem t j c s x cs)).
  rewrite Hid, findInList_app.
  change (findInList i [child])
    with (match findId i child with Some y => Some y | None => None end).
  rewrite Hchild. by destruct (findInList i cs).
Qed.

Lemma styleSheet_other_id (j : string) :
  j ≠ styleId -> findId j styleSheet = None /\ countId j styleSheet = 0%nat.
Proof.
  intros Hne. unfold styleSheet. cbn. unfold hasId. cbn [id].
  by destruct (String.eqb_spec j styleId).
Qed.

(** X11. The registration only ever adds: the body is untouched, the
    children of the head stay in place with at most the style sheet added
    after them, and for every other identifier the number of elements that
    carry it is unchanged and, unless it is the identifier of the head
    element itself, so is the element that [getElementById] finds. *)
Theorem registration_leaves_other_elements_alone
    (d : Document) (j : string) :
  j ≠ styleId ->
  body (injectKeyframes d) = body d /\
  (exists added : list Element,
      children (head (injectKeyframes d))
      = (children (head d) ++ added)%list /\
      (added = [] \/ added = [styleSheet])) /\
  countInDocument j (injectKeyframes d) = countInDocument j d /\
  (hasId j (head d) = false ->
   getElementById j (injectKeyframes d) = getElementById j d).
Proof.
  intros Hne. destruct (styleSheet_other_id j Hne) as [Hfind Hcount].
  unfold injectKeyframes.
  destruct (getElementById styleId d) as [e |].
  - repeat split; try done. exists []. rewrite app_nil_r. by split; [| left].
  - cbn [body head]. repeat split.
    + exists [styleSheet]. split; [by destruct (head d) | by right].
    + unfold countInDocument. cbn [head body].
      rewrite countId_appendChild, Hcount. lia.
    + intros Hhead. unfold getElementById. cbn [head body].
      by rewrite (findId_appendChild_other j styleSheet (head d) Hhead Hfind).
Qed.

Lemma registration_leaves_other_elements_alone_witness :
  body (injectKeyframes emptyDocument) = body emptyDocument /\
  (exists added : list Element,
      children (head (injectKeyframes emptyDocument))
      = (children (head emptyDocument) ++ added)%list /\
      (added = [] \/ added = [styleSheet])) /\
  countInDocument "root" (injectKeyframes emptyDocument)
  = countInDocument "root" emptyDocument /\
  (hasId "root" (head emptyDocument) = false ->
   getElementById "root" (injectKeyframes emptyDocument)
   = getElementById "root" emptyDocument).
Proof.
  apply (registration_leaves_other_elements_alone emptyDocument "root").
  discriminate.
Defined.

(** X12. On any page, whatever it holds, mounting one or more instances
    adds the style sheet exactly when no element carries the identifier:
    the number of elements with the identifier becomes the maximum of 1 and
    what it was.  A page that uses the identifier for an element of its own
    keeps that element and gets no keyframes. *)
Theorem mounting_adds_at_most_one_element (d : Document) (ps : list Props) :
  ps ≠ [] ->
  countInDocument styleId (mountAll ps d)
  = Nat.max 1 (countInDocument styleId d) /\
  (forall e : Element,
      getElementById styleId d = Some e -> mountAll ps d = d).
Proof.
  intros Hps. destruct ps as [| p0 ps]; [done |]. split.
  - destruct (getElementById styleId d) as [e |] eqn:Hfound.
    + rewrite (mountAll_present _ d e Hfound).
      destruct (countInDocument styleId d) as [| c] eqn:Hcount; [| lia].
      apply getElementById_None_count in Hcount. congruence.
    + rewrite (mountAll_absent p0 ps d Hfound).
      destruct (injectKeyframes_absent d Hfound) as [-> _].
      apply getElementById_None_count in Hfound. rewrite Hfound. done.
  - intros e Hfound. by eapply mountAll_present.
Qed.

Lemma mounting_adds_at_most_one_element_witness :
  countInDocument styleId (mountAll [scenarioProps; noFramesProps] takenDocument)
  = Nat.max 1 (countInDocument styleId takenDocument) /\
  (forall e : Element,
      getElementById styleId takenDocument = Some e ->
      mountAll [scenarioProps; noFramesProps] takenDocument = takenDocument).
Proof.
  apply (mounting_adds_at_most_one_element takenDocument
           [scenarioProps; noFramesProps]).
  discriminate.
Defined.

End RegistrationFrame.
